(** * update_html.py: the tooltip markup rewriter

    The script reads [index.html], applies fifteen literal [str.replace]
    calls one after the other to the text, and writes the result back to
    the same file.  This development embeds the script shallowly:

    - a Python [str] is a list of Unicode code points ([N]);
    - [str.replace] is the left-to-right scan of the Python built-in;
    - the fifteen calls are the nested [let]s of [update_html];
    - the two [with open(...)] blocks run in a small state-and-exception
      monad over an abstract operating system that records every call.

    The module [re] that the script imports is not used by it. *)

From Equations Require Import Equations.
From Stdlib Require Import Ascii String.
From Stdlib Require Import List Arith Lia NArith Bool Permutation.
Import ListNotations.

(** ** Text *)

Module Text.

(** A character is a Unicode code point; a string is a sequence of them. *)
Definition char := N.
Definition str := list char.

(** The literals of the script are ASCII.  They are written here as Rocq
    strings in which the apostrophe stands for the double quote (code
    point 34): no literal of the script holds an apostrophe. *)
Definition code (a : ascii) : char :=
  if Ascii.eqb a "'"%char then 34%N else N_of_ascii a.

Definition lit (s : string) : str := map code (list_ascii_of_string s).

(** Line feed, and the indentation of the multi-line literals. *)
Definition nl : str := [10%N].
Definition sp (n : nat) : str := repeat 32%N n.

(** [prefix p s]: does [s] start with [p]? *)
Fixpoint prefix (p s : str) : bool :=
  match p, s with
  | [], _ => true
  | _ :: _, [] => false
  | a :: p', b :: s' => N.eqb a b && prefix p' s'
  end.

(** The scan of [str.replace] for a non-empty search string [o :: old]:
    at each position, either the search string starts here, its
    replacement is emitted and the scan resumes after the match, or one
    character is copied. *)
Equations? replace_scan (o : char) (old new s : str) : str
  by wf (length s) lt :=
  replace_scan o old new [] := [];
  replace_scan o old new (c :: s') with prefix (o :: old) (c :: s') := {
    | true => new ++ replace_scan o old new (skipn (length old) s');
    | false => c :: replace_scan o old new s' }.
Proof.
  rewrite length_skipn. lia.
Qed.

(** [replace old new s] is Python's [s.replace(old, new)].  With an empty
    search string Python inserts [new] before every character and at the
    end. *)
Definition replace (old new s : str) : str :=
  match old with
  | [] => new ++ flat_map (fun c => c :: new) s
  | o :: old' => replace_scan o old' new s
  end.

(** *** Occurrences and overlaps *)

(** [occursb p s]: does [p] occur in [s] as a contiguous substring? *)
Fixpoint occursb (p s : str) : bool :=
  prefix p s ||
  match s with
  | [] => false
  | _ :: s' => occursb p s'
  end.

(** The non-empty suffixes of a string, longest first. *)
Fixpoint tails (s : str) : list str :=
  match s with
  | [] => []
  | _ :: s' => s :: tails s'
  end.

(** Two strings are comparable when one is a prefix of the other: they
    can start at the same position of some text. *)
Definition comparable (x y : str) : bool := prefix x y || prefix y x.

(** [overlap_free x y]: in no text does an occurrence of [x] share a
    character with an occurrence of [y].  No non-empty suffix of the one
    is comparable with the other. *)
Definition overlap_free (x y : str) : bool :=
  forallb (fun u => negb (comparable u y)) (tails x) &&
  forallb (fun v => negb (comparable v x)) (tails y).

(** [border_free x]: two distinct occurrences of [x] never share a
    character. *)
Definition border_free (x : str) : bool :=
  forallb (fun u => negb (comparable u x)) (tl (tails x)).

(** [straddles old a c]: in [a ++ c], some occurrence of [old] starts
    inside [a] and ends inside [c]. *)
Fixpoint straddles (old a c : str) : bool :=
  match a with
  | [] => false
  | _ :: a' =>
      (prefix old (a ++ c) && (length a <? length old)) || straddles old a' c
  end.

(** [starts_in old m b]: in [m ++ b], some occurrence of [old] starts
    inside [m]. *)
Fixpoint starts_in (old m b : str) : bool :=
  match m with
  | [] => false
  | _ :: m' => prefix old (m ++ b) || starts_in old m' b
  end.

(** [touches old a m b]: in [a ++ m ++ b], some occurrence of [old]
    shares a character with the middle part [m]. *)
Definition touches (old a m b : str) : bool :=
  straddles old a (m ++ b) || starts_in old m b.

(** Equality of strings, decided. *)
Fixpoint str_eqb (x y : str) : bool :=
  match x, y with
  | [], [] => true
  | a :: x', b :: y' => N.eqb a b && str_eqb x' y'
  | _, _ => false
  end.

(** *** White space *)

(** The white space of HTML: tab, line feed, form feed, carriage return
    and space. *)
Definition is_space (c : char) : bool :=
  N.eqb c 9 || N.eqb c 10 || N.eqb c 12 || N.eqb c 13 || N.eqb c 32.

(** [collapse_ws s] writes one space for every maximal run of white
    space of [s]. *)
Fixpoint collapse_from (in_run : bool) (s : str) : str :=
  match s with
  | [] => []
  | c :: s' =>
      if is_space c
      then (if in_run then collapse_from true s'
            else 32%N :: collapse_from true s')
      else c :: collapse_from false s'
  end.

Definition collapse_ws (s : str) : str := collapse_from false s.

End Text.

Import Text.

(** ** The fifteen replacements of the script *)

Module Script.

(** A replacement rule: the search literal and its replacement. *)
Definition rule : Type := str * str.

(** "Replace tooltip structure" (lines 7-18). *)
Definition tooltip_box_old : str :=
  lit "<div id='universal-tooltip' class='universal-tooltip hidden'>" ++ nl ++
  sp 12 ++ lit "<div class='tooltip-title' id='tt-title'></div>" ++ nl ++
  sp 12 ++ lit "<div class='tooltip-desc' id='tt-desc'></div>" ++ nl ++
  sp 8 ++ lit "</div>".
Definition tooltip_box_new : str :=
  lit "<div id='universal-tooltip' class='universal-tooltip hidden'>" ++ nl ++
  sp 12 ++ lit "<div class='tooltip-title' id='tt-title'></div>" ++ nl ++
  sp 12 ++ lit "<div class='tooltip-line' id='tt-line1'></div>" ++ nl ++
  sp 12 ++ lit "<div class='tooltip-line' id='tt-line2'></div>" ++ nl ++
  sp 12 ++ lit "<div class='tooltip-line' id='tt-line3'></div>" ++ nl ++
  sp 8 ++ lit "</div>".

(** "Replace Sector Stability" (lines 21-30): pretty-printed, then flat. *)
Definition stability_pretty_old : str :=
  lit "data-tooltip='Sector Stability'" ++ nl ++
  sp 36 ++ lit "data-tooltip-desc='Aggregated probabilistic risk score across KP segments.'".
Definition stability_pretty_new : str :=
  lit "data-tooltip='Sector Stability'" ++ nl ++
  sp 36 ++ lit "data-tooltip-short='Aggregated probabilistic risk score.' data-tooltip-tech='Derived from Bayesian risk modeling across KP segments.'".
Definition stability_flat_old : str :=
  lit "data-tooltip='Sector Stability' data-tooltip-desc='Aggregated probabilistic risk score across KP segments.'".
Definition stability_flat_new : str :=
  lit "data-tooltip='Sector Stability' data-tooltip-short='Aggregated probabilistic risk score.' data-tooltip-tech='Derived from Bayesian risk modeling across KP segments.'".

(** "Replace Hazard Engine" (lines 33-42). *)
Definition hazard_pretty_old : str :=
  lit "data-tooltip='Hazard Engine'" ++ nl ++
  sp 28 ++ lit "data-tooltip-desc='Inject and simulate physical failure events.'".
Definition hazard_pretty_new : str :=
  lit "data-tooltip='Hazard Engine'" ++ nl ++
  sp 28 ++ lit "data-tooltip-short='Inject simulated failure scenarios.' data-tooltip-tech='Used to test system detection and response capability.'".
Definition hazard_flat_old : str :=
  lit "data-tooltip='Hazard Engine' data-tooltip-desc='Inject and simulate physical failure events.'".
Definition hazard_flat_new : str :=
  lit "data-tooltip='Hazard Engine' data-tooltip-short='Inject simulated failure scenarios.' data-tooltip-tech='Used to test system detection and response capability.'".

(** "Bio-Energy Harvest" (lines 45-48). *)
Definition bio_old : str := lit "<span>BIO-ALGAE HARVEST</span>".
Definition bio_new : str :=
  lit "<span class='neptune-tooltip' data-tooltip='Bio-Energy Harvest' data-tooltip-short='Marine algae-based supplemental energy system.' data-tooltip-tech='Reduces reliance on external power sources.'>BIO-ALGAE HARVEST</span>".

(** "AUV Fleet" (lines 51-54). *)
Definition fleet_old : str :=
  lit "<div class='accordion-item' data-panel='fleet-panel'>".
Definition fleet_new : str :=
  lit "<div class='accordion-item neptune-tooltip' data-panel='fleet-panel' data-tooltip='AUV Fleet' data-tooltip-short='Monitor AUV battery, readiness, and mission status.' data-tooltip-tech='Used to assess deployment capability.'>".

(** "Isolation" (lines 57-66).  The pretty-printed replacement has a
    space before its line break that the search literal has not. *)
Definition isolation_pretty_old : str :=
  lit "<button id='btn-approve-multi' class='btn critical-btn'>Approve Isolation + Multi-AUV" ++ nl ++
  sp 24 ++ lit "Deployment</button>".
Definition isolation_pretty_new : str :=
  lit "<button id='btn-approve-multi' class='btn critical-btn neptune-tooltip' data-tooltip='Isolation Control' data-tooltip-short='Temporarily close upstream and downstream valves.' data-tooltip-tech='Prevents escalation of structural damage.' data-tooltip-use='Execute immediately upon critical threshold breach.'>Approve Isolation + Multi-AUV " ++ nl ++
  sp 24 ++ lit "Deployment</button>".
Definition isolation_flat_old : str :=
  lit "<button id='btn-approve-multi' class='btn critical-btn'>Approve Isolation + Multi-AUV Deployment</button>".
Definition isolation_flat_new : str :=
  lit "<button id='btn-approve-multi' class='btn critical-btn neptune-tooltip' data-tooltip='Isolation Control' data-tooltip-short='Temporarily close upstream and downstream valves.' data-tooltip-tech='Prevents escalation of structural damage.' data-tooltip-use='Execute immediately upon critical threshold breach.'>Approve Isolation + Multi-AUV Deployment</button>".

(** "Navigation Modes" (lines 69-92). *)
Definition global_old : str :=
  lit "data-tooltip='Global Curvature Mode' data-tooltip-desc='View the entire 1900km corridor.'".
Definition global_new : str :=
  lit "data-tooltip='Global Curvature Mode' data-tooltip-short='Switch camera and system visualization modes.' data-tooltip-tech='Changes operational view without affecting system logic.' data-tooltip-use='View the entire 1900km corridor.'".
Definition sector_pretty_old : str :=
  lit "data-tooltip='Sector Mode'" ++ nl ++
  sp 24 ++ lit "data-tooltip-desc='Zoom to specific operating sectors.'".
Definition sector_pretty_new : str :=
  lit "data-tooltip='Sector Mode'" ++ nl ++
  sp 24 ++ lit "data-tooltip-short='Switch camera and system visualization modes.' data-tooltip-tech='Changes operational view without affecting system logic.' data-tooltip-use='Zoom to specific operating sectors.'".
Definition sector_flat_old : str :=
  lit "data-tooltip='Sector Mode' data-tooltip-desc='Zoom to specific operating sectors.'".
Definition sector_flat_new : str :=
  lit "data-tooltip='Sector Mode' data-tooltip-short='Switch camera and system visualization modes.' data-tooltip-tech='Changes operational view without affecting system logic.' data-tooltip-use='Zoom to specific operating sectors.'".
Definition inspection_pretty_old : str :=
  lit "data-tooltip='Inspection Mode'" ++ nl ++
  sp 24 ++ lit "data-tooltip-desc='Close-up seabed visualization.'".
Definition inspection_pretty_new : str :=
  lit "data-tooltip='Inspection Mode'" ++ nl ++
  sp 24 ++ lit "data-tooltip-short='Switch camera and system visualization modes.' data-tooltip-tech='Changes operational view without affecting system logic.' data-tooltip-use='Close-up seabed visualization.'".
Definition inspection_flat_old : str :=
  lit "data-tooltip='Inspection Mode' data-tooltip-desc='Close-up seabed visualization.'".
Definition inspection_flat_new : str :=
  lit "data-tooltip='Inspection Mode' data-tooltip-short='Switch camera and system visualization modes.' data-tooltip-tech='Changes operational view without affecting system logic.' data-tooltip-use='Close-up seabed visualization.'".

(** "Replace all remaining data-tooltip-desc with data-tooltip-short"
    (line 95). *)
Definition desc_marker : str := lit "data-tooltip-desc".
Definition short_marker : str := lit "data-tooltip-short".

(** Lines 7 to 95: the variable [html] is reassigned fifteen times, each
    call reading the value the previous one produced. *)
Definition update_html (html : str) : str :=
  let html := replace tooltip_box_old tooltip_box_new html in
  let html := replace stability_pretty_old stability_pretty_new html in
  let html := replace stability_flat_old stability_flat_new html in
  let html := replace hazard_pretty_old hazard_pretty_new html in
  let html := replace hazard_flat_old hazard_flat_new html in
  let html := replace bio_old bio_new html in
  let html := replace fleet_old fleet_new html in
  let html := replace isolation_pretty_old isolation_pretty_new html in
  let html := replace isolation_flat_old isolation_flat_new html in
  let html := replace global_old global_new html in
  let html := replace sector_pretty_old sector_pretty_new html in
  let html := replace sector_flat_old sector_flat_new html in
  let html := replace inspection_pretty_old inspection_pretty_new html in
  let html := replace inspection_flat_old inspection_flat_new html in
  let html := replace desc_marker short_marker html in
  html.

(** *** The same calls as a list of rules *)

(** The fourteen context-specific rules, in program order. *)
Definition specific_rules : list rule :=
  [ (tooltip_box_old, tooltip_box_new);
    (stability_pretty_old, stability_pretty_new);
    (stability_flat_old, stability_flat_new);
    (hazard_pretty_old, hazard_pretty_new);
    (hazard_flat_old, hazard_flat_new);
    (bio_old, bio_new);
    (fleet_old, fleet_new);
    (isolation_pretty_old, isolation_pretty_new);
    (isolation_flat_old, isolation_flat_new);
    (global_old, global_new);
    (sector_pretty_old, sector_pretty_new);
    (sector_flat_old, sector_flat_new);
    (inspection_pretty_old, inspection_pretty_new);
    (inspection_flat_old, inspection_flat_new) ].

(** The generic sweep of line 95. *)
Definition sweep : rule := (desc_marker, short_marker).

(** All fifteen rules, in program order. *)
Definition rules : list rule := specific_rules ++ [sweep].

(** The search literal of the rule is not the empty string. *)
Definition nonempty_search (r : rule) : Prop := fst r <> [].

Definition apply_rule (html : str) (r : rule) : str :=
  replace (fst r) (snd r) html.

(** [run rs html] applies the rules of [rs] from left to right, each to
    the result of the one before. *)
Definition run (rs : list rule) (html : str) : str :=
  fold_left apply_rule rs html.

(** The rules in another order: the generic sweep first, then the
    context-specific rules. *)
Definition sweep_first (html : str) : str := run (sweep :: specific_rules) html.

(** The targets that have a pretty-printed and a flattened variant:
    (pretty search, pretty replacement, flat search, flat replacement). *)
Definition dual_variants : list (rule * rule) :=
  [ ((stability_pretty_old, stability_pretty_new),
     (stability_flat_old, stability_flat_new));
    ((hazard_pretty_old, hazard_pretty_new),
     (hazard_flat_old, hazard_flat_new));
    ((isolation_pretty_old, isolation_pretty_new),
     (isolation_flat_old, isolation_flat_new));
    ((sector_pretty_old, sector_pretty_new),
     (sector_flat_old, sector_flat_new));
    ((inspection_pretty_old, inspection_pretty_new),
     (inspection_flat_old, inspection_flat_new)) ].

(** The attribute [data-tooltip-desc="x"] and its renamed form. *)
Definition desc_attr (x : str) : str := desc_marker ++ lit "='" ++ x ++ lit "'".
Definition short_attr (x : str) : str := short_marker ++ lit "='" ++ x ++ lit "'".

(** *** Static checks on a list of rules *)

(** [absent_after s rs absent]: a sufficient check that [s] does not
    occur in the text once the rules [rs] have run.  [absent] tells
    whether [s] is known not to occur before they run.  A rule whose
    search literal occurs in [s], and whose replacement cannot overlap
    that literal, removes every occurrence of [s]; a rule whose
    replacement cannot overlap [s] creates none. *)
Fixpoint absent_after (s : str) (rs : list rule) (absent : bool) : bool :=
  match rs with
  | [] => absent
  | (old, new) :: rs' =>
      absent_after s rs'
        ((occursb old s && overlap_free old new) ||
         (absent && overlap_free s new))
  end.

(** [track rs m]: what the fragment [m] has become once the rules [rs]
    have run, whatever surrounds it, when that can be told from the
    literals alone: each rule either has [m] as its search literal or
    cannot overlap [m]. *)
Fixpoint track (rs : list rule) (m : str) : option str :=
  match rs with
  | [] => Some m
  | (old, new) :: rs' =>
      if str_eqb old m
      then (if border_free old then track rs' new else None)
      else (if overlap_free old m then track rs' m else None)
  end.

(** [untouched rs a m b]: while the rules [rs] run on [a ++ m ++ b], no
    match of any of them shares a character with the middle part [m]. *)
Fixpoint untouched (rs : list rule) (a m b : str) : bool :=
  match rs with
  | [] => true
  | (old, new) :: rs' =>
      negb (touches old a m b) &&
      untouched rs' (replace old new a) m (replace old new b)
  end.

(** The rule [r] migrates its search literal wherever it stands: the
    literal becomes the replacement, and the text before and after it is
    rewritten as if it stood alone. *)
Definition migrates (r : rule) : Prop :=
  forall a b,
    update_html (a ++ fst r ++ b) = update_html a ++ snd r ++ update_html b.

(** Two texts that differ only in their runs of white space. *)
Definition same_up_to_space (x y : str) : Prop :=
  collapse_ws x = collapse_ws y.

(** No search literal of [rs] occurs in [d]. *)
Definition none_occurs (rs : list rule) (d : str) : bool :=
  forallb (fun r => negb (occursb (fst r) d)) rs.

(** *** Further readings of the rules *)

(** The fragment [m] is left as it is wherever it stands, and the text
    before and after it is rewritten as if it stood alone. *)
Definition stays (m : str) : Prop :=
  forall a b,
    update_html (a ++ m ++ b) = update_html a ++ m ++ update_html b.

(** The character [c] is in no search literal of [rs]. *)
Definition foreign (rs : list rule) (c : char) : bool :=
  forallb (fun r => negb (existsb (N.eqb c) (fst r))) rs.

(** Every replacement is longer than its search literal. *)
Definition all_grow (rs : list rule) : bool :=
  forallb (fun r => length (fst r) <? length (snd r)) rs.

(** The two rules can run in either order. *)
Definition commute (r1 r2 : rule) : Prop :=
  forall d, apply_rule (apply_rule d r1) r2 = apply_rule (apply_rule d r2) r1.

Definition rule_eqb (r1 r2 : rule) : bool :=
  str_eqb (fst r1) (fst r2) && str_eqb (snd r1) (snd r2).

(** [independent r1 r2]: a sufficient check that the two rules can run
    in either order.  Their search literals cannot overlap, neither with
    themselves nor with one another, and the replacement of the one
    cannot overlap the search literal of the other. *)
Definition independent (r1 r2 : rule) : bool :=
  border_free (fst r1) && border_free (fst r2) &&
  overlap_free (fst r1) (fst r2) &&
  overlap_free (fst r1) (snd r2) &&
  overlap_free (fst r2) (snd r1).

Definition pairwise_independent (rs : list rule) : bool :=
  forallb (fun r1 =>
             forallb (fun r2 => rule_eqb r1 r2 || independent r1 r2) rs) rs.

End Script.

Import Script.

(** ** What the specification says a replacement is *)

Module Spec.

(** [p] occurs in [s]. *)
Definition occurs (p s : str) : Prop := exists x y, s = x ++ p ++ y.

(** In [a ++ old ++ b], the occurrence of [old] after [a] is the
    leftmost one: no occurrence starts before it. *)
Definition leftmost (old a b : str) : Prop :=
  forall x y, a ++ old ++ b = x ++ old ++ y -> exists k, x = a ++ k.

(** "Replaces all non-overlapping occurrences of its search literal,
    leftmost first": a text without occurrence is left as it is;
    otherwise the leftmost occurrence is replaced, and the text after it
    is treated in the same way. *)
Inductive replace_all (old new : str) : str -> str -> Prop :=
| ra_done s :
    ~ occurs old s -> replace_all old new s s
| ra_step a b b' :
    leftmost old a b -> replace_all old new b b' ->
    replace_all old new (a ++ old ++ b) (a ++ new ++ b').

(** "Rule N sees the output of rule N-1": the rules are folded over the
    document. *)
Inductive fold_rules : list rule -> str -> str -> Prop :=
| fr_nil d : fold_rules [] d d
| fr_cons old new rs d d1 d2 :
    replace_all old new d d1 -> fold_rules rs d1 d2 ->
    fold_rules ((old, new) :: rs) d d2.

End Spec.

(** ** The script and its files *)

Module Os.

(** The exceptions a file operation can raise. *)
Inductive exn : Type :=
| FileNotFoundError
| PermissionError
| UnicodeError
| OSError.

(** The operating system behind [open], [read], [write] and the end of a
    [with] block.  Nothing is assumed about it: every call may change
    the world and may raise. *)
Record system : Type := {
  world : Type;
  handle : Type;
  sys_open : string -> string -> string -> world -> world * (exn + handle);
  sys_read : handle -> world -> world * (exn + str);
  sys_write : handle -> str -> world -> world * (exn + unit);
  sys_close : handle -> world -> world * (exn + unit)
}.

(** The calls the script makes, with their arguments and outcome. *)
Inductive event : Type :=
| EvOpen (path mode encoding : string) (err : option exn)
| EvRead (res : exn + str)
| EvWrite (data : str) (err : option exn)
| EvClose (err : option exn).

Definition err_of {A : Type} (r : exn + A) : option exn :=
  match r with
  | inl e => Some e
  | inr _ => None
  end.

Section Program.

Variable sys : system.

(** The state of a run: the world and the calls made so far. *)
Definition state : Type := (world sys * list event)%type.

(** A computation changes the state and either raises or returns. *)
Definition M (A : Type) : Type := state -> state * (exn + A).

Definition ret {A : Type} (a : A) : M A := fun st => (st, inr a).

Definition bind {A B : Type} (m : M A) (k : A -> M B) : M B :=
  fun st =>
    match m st with
    | (st', inl e) => (st', inl e)
    | (st', inr a) => k a st'
    end.

Definition do_open (path mode encoding : string) : M (handle sys) :=
  fun st =>
    let (w', r) := sys_open sys path mode encoding (fst st) in
    ((w', snd st ++ [EvOpen path mode encoding (err_of r)]), r).

Definition do_read (f : handle sys) : M str :=
  fun st =>
    let (w', r) := sys_read sys f (fst st) in
    ((w', snd st ++ [EvRead r]), r).

Definition do_write (f : handle sys) (data : str) : M unit :=
  fun st =>
    let (w', r) := sys_write sys f data (fst st) in
    ((w', snd st ++ [EvWrite data (err_of r)]), r).

Definition do_close (f : handle sys) : M unit :=
  fun st =>
    let (w', r) := sys_close sys f (fst st) in
    ((w', snd st ++ [EvClose (err_of r)]), r).

(** [with open(path, mode, encoding=encoding) as f: body].  The file is
    closed when the block is left, also by an exception; an exception of
    the close itself is the one that propagates. *)
Definition with_open {A : Type} (path mode encoding : string)
    (body : handle sys -> M A) : M A :=
  fun st =>
    match do_open path mode encoding st with
    | (st1, inl e) => (st1, inl e)
    | (st1, inr f) =>
        match body f st1 with
        | (st2, r) =>
            match do_close f st2 with
            | (st3, inl e) => (st3, inl e)
            | (st3, inr _) => (st3, r)
            end
        end
    end.

(** The script: lines 3-4, lines 7-95, lines 97-98.  There is no [try]
    in it. *)
Definition main : M unit :=
  bind (with_open "index.html" "r" "utf-8" (fun f => do_read f))
    (fun html =>
       let html := update_html html in
       with_open "index.html" "w" "utf-8" (fun f => do_write f html)).

(** [run_script w] runs the script in the world [w]: the world it
    leaves, the calls it made, and its outcome. *)
Definition run_script (w : world sys) : state * (exn + unit) := main (w, []).

End Program.

(** *** Reading the record of calls *)

Definition failed (ev : event) : option exn :=
  match ev with
  | EvOpen _ _ _ err => err
  | EvRead r => err_of r
  | EvWrite _ err => err
  | EvClose err => err
  end.

(** The call opens a file for writing, or writes. *)
Definition writes (ev : event) : bool :=
  match ev with
  | EvOpen _ mode _ _ => String.eqb mode "w"
  | EvWrite _ _ => true
  | _ => false
  end.

(** The (path, mode, encoding) of every [open] of the record. *)
Fixpoint opens (log : list event) : list (string * string * string) :=
  match log with
  | [] => []
  | EvOpen p m e _ :: log' => (p, m, e) :: opens log'
  | _ :: log' => opens log'
  end.

(** The call opens a file for reading, or reads. *)
Definition reading (ev : event) : bool :=
  match ev with
  | EvOpen _ mode _ _ => String.eqb mode "r"
  | EvRead _ => true
  | _ => false
  end.

Definition is_close (ev : event) : bool :=
  match ev with
  | EvClose _ => true
  | _ => false
  end.

Definition has_failed (ev : event) : bool :=
  match failed ev with
  | Some _ => true
  | None => false
  end.

(** The exceptions raised, in the order of the calls. *)
Fixpoint errors (log : list event) : list exn :=
  match log with
  | [] => []
  | ev :: log' =>
      match failed ev with
      | Some e => e :: errors log'
      | None => errors log'
      end
  end.

(** What a record of calls tells about the end of the run: success when
    no call raised, and else the exception raised last. *)
Definition outcome_of (log : list event) : exn + unit :=
  match rev (errors log) with
  | [] => inr tt
  | e :: _ => inl e
  end.

(** After the first call that raised, the record holds nothing but the
    closing of the file. *)
Fixpoint stops_at_failure (log : list event) : bool :=
  match log with
  | [] => true
  | ev :: log' =>
      if has_failed ev then forallb is_close log' else stops_at_failure log'
  end.

(** The opening for reading, or the reading, raised. *)
Definition read_failed (log : list event) : bool :=
  existsb (fun ev => reading ev && has_failed ev) log.

(** Nothing was opened for writing or written. *)
Definition nothing_written (log : list event) : bool :=
  forallb (fun ev => negb (writes ev)) log.

(** [bracketed opened log]: the calls of [log] keep the discipline of
    the [with] block.  [opened] tells whether a file is open before
    them.  A file is opened only when none is open; it is read or
    written only while it is open; it is closed once, also after a call
    that raised; and no file is open at the end. *)
Fixpoint bracketed (opened : bool) (log : list event) : bool :=
  match log with
  | [] => negb opened
  | EvOpen _ _ _ None :: log' => negb opened && bracketed true log'
  | EvOpen _ _ _ (Some _) :: log' => negb opened && bracketed false log'
  | EvRead _ :: log' => opened && bracketed true log'
  | EvWrite _ _ :: log' => opened && bracketed true log'
  | EvClose _ :: log' => opened && bracketed false log'
  end.

(** The number of reads and of writes of a record. *)
Definition reads_count (log : list event) : nat :=
  length (filter (fun ev => match ev with EvRead _ => true | _ => false end)
            log).
Definition writes_count (log : list event) : nat :=
  length (filter (fun ev => match ev with EvWrite _ _ => true | _ => false end)
            log).

(** *** A file system in memory *)

(** The script opens its file in text mode without a [newline]
    argument.  A read then gives the decoded text with every line end
    CR LF and every CR alone turned into LF. *)
Fixpoint universal_newlines (s : str) : str :=
  match s with
  | [] => []
  | c :: s' =>
      if N.eqb c 13
      then 10%N :: match s' with
                   | [] => []
                   | d :: s'' =>
                       if N.eqb d 10 then universal_newlines s''
                       else universal_newlines s'
                   end
      else c :: universal_newlines s'
  end.

(** A write stores every LF as the line separator of the platform:
    LF itself, or CR LF. *)
Inductive platform : Type :=
| Posix
| Windows.

Definition to_linesep (p : platform) (s : str) : str :=
  match p with
  | Posix => s
  | Windows =>
      flat_map (fun c => if N.eqb c 10 then [13%N; 10%N] else [c]) s
  end.

(** What [index.html] holds after a run that succeeded, when it held
    [s] before. *)
Definition rewritten (p : platform) (s : str) : str :=
  to_linesep p (update_html (universal_newlines s)).

(** The text has no CR. *)
Definition no_cr (s : str) : bool := forallb (fun c => negb (N.eqb c 13)) s.

(** A file, seen through UTF-8: the text its bytes decode to, or bytes
    that do not decode. *)
Inductive content : Type :=
| Text (s : str)
| Undecodable.

Record file : Type := {
  f_content : content;
  f_readable : bool;
  f_writable : bool
}.

(** The files by path. *)
Definition files : Type := string -> option file.

Definition put (path : string) (f : file) (fs : files) : files :=
  fun p => if String.eqb p path then Some f else fs p.

(** An open file: its path and whether it was opened for writing. *)
Definition mem_handle : Type := (string * bool)%type.

Definition mem_open (path mode encoding : string) (fs : files)
    : files * (exn + mem_handle) :=
  match fs path with
  | None =>
      if String.eqb mode "w"
      then (put path {| f_content := Text []; f_readable := true;
                        f_writable := true |} fs, inr (path, true))
      else (fs, inl FileNotFoundError)
  | Some f =>
      if String.eqb mode "w"
      then (if f_writable f
            then (put path {| f_content := Text [];
                              f_readable := f_readable f;
                              f_writable := true |} fs, inr (path, true))
            else (fs, inl PermissionError))
      else (if f_readable f then (fs, inr (path, false))
            else (fs, inl PermissionError))
  end.

Definition mem_read (h : mem_handle) (fs : files) : files * (exn + str) :=
  match fs (fst h) with
  | Some {| f_content := Text s |} => (fs, inr (universal_newlines s))
  | Some {| f_content := Undecodable |} => (fs, inl UnicodeError)
  | None => (fs, inl OSError)
  end.

Definition mem_write (p : platform) (h : mem_handle) (data : str)
    (fs : files) : files * (exn + unit) :=
  match fs (fst h), snd h with
  | Some {| f_content := Text s; f_readable := r; f_writable := w |}, true =>
      (put (fst h) {| f_content := Text (s ++ to_linesep p data);
                      f_readable := r; f_writable := w |} fs, inr tt)
  | _, _ => (fs, inl OSError)
  end.

Definition mem_close (h : mem_handle) (fs : files) : files * (exn + unit) :=
  (fs, inr tt).

Definition mem_system_on (p : platform) : system :=
  {| world := files; handle := mem_handle;
     sys_open := mem_open; sys_read := mem_read;
     sys_write := mem_write p; sys_close := mem_close |}.

Definition mem_system : system := mem_system_on Posix.

(** A file system with nothing in it, and one with a readable and
    writable [index.html]. *)
Definition no_files : files := fun _ => None.
Definition one_file (s : str) : files :=
  put "index.html" {| f_content := Text s; f_readable := true;
                      f_writable := true |} no_files.

Arguments universal_newlines : simpl never.
Arguments to_linesep : simpl never.

End Os.

Import Spec.

(** * Properties *)

(** ** Prefixes and the three equations of [replace] *)

Lemma prefix_app p r : prefix p (p ++ r) = true.
Proof.
  induction p as [|a p IH]; simpl; [reflexivity|].
  now rewrite N.eqb_refl.
Qed.

Lemma prefix_inv p s : prefix p s = true -> exists r, s = p ++ r.
Proof.
  revert s; induction p as [|a p IH]; intros s H.
  - now exists s.
  - destruct s as [|b s]; simpl in H; [discriminate|].
    apply andb_true_iff in H as [Hab H].
    apply N.eqb_eq in Hab as ->.
    destruct (IH _ H) as [r ->]. now exists r.
Qed.

Lemma prefix_false p s r : prefix p s = false -> s <> p ++ r.
Proof.
  intros H ->. rewrite prefix_app in H. discriminate.
Qed.

Lemma skipn_exact (p r : str) : skipn (length p) (p ++ r) = r.
Proof. induction p; simpl; auto. Qed.

Lemma replace_nil old new : old <> [] -> replace old new [] = [].
Proof.
  destruct old as [|o old]; [congruence|]; intros _.
  unfold replace. now rewrite replace_scan_equation_1.
Qed.

Lemma replace_hit old new r :
  old <> [] -> replace old new (old ++ r) = new ++ replace old new r.
Proof.
  destruct old as [|o old]; [congruence|]; intros _.
  unfold replace. rewrite <- app_comm_cons, replace_scan_equation_2.
  rewrite (app_comm_cons old r o), prefix_app.
  now rewrite replace_scan_clause_2_equation_1, skipn_exact.
Qed.

Lemma replace_miss old new c s :
  old <> [] -> prefix old (c :: s) = false ->
  replace old new (c :: s) = c :: replace old new s.
Proof.
  destruct old as [|o old]; [congruence|]; intros _ H.
  unfold replace. rewrite replace_scan_equation_2, H.
  now rewrite replace_scan_clause_2_equation_2.
Qed.

(** Lengths settle which of two decompositions is the longer one. *)
Ltac lens :=
  repeat match goal with
         | H : ?a = _ |- _ =>
             let T := type of a in
             unify T str; apply (f_equal (@length char)) in H
         end;
  repeat rewrite ?length_app in *; simpl in *; try lia.

Lemma nonempty_length (s : str) : s <> [] -> 0 < length s.
Proof. destruct s; simpl; [congruence|lia]. Qed.

(** ** Occurrences *)

Lemma occursb_true p s : occursb p s = true -> occurs p s.
Proof.
  induction s as [|c s IH]; simpl; intros H.
  - rewrite orb_false_r in H. apply prefix_inv in H as [r ->].
    now exists [], r.
  - apply orb_true_iff in H as [H|H].
    + apply prefix_inv in H as [r ->]. now exists [], r.
    + destruct (IH H) as (x & y & ->). now exists (c :: x), y.
Qed.

Lemma occursb_head p s : prefix p s = true -> occursb p s = true.
Proof. destruct s; simpl; intros ->; reflexivity. Qed.

Lemma occurs_occursb p s : occurs p s -> occursb p s = true.
Proof.
  intros (x & y & ->). induction x as [|c x IH]; simpl.
  - apply occursb_head, prefix_app.
  - rewrite IH. apply orb_true_r.
Qed.

Lemma occursb_iff p s : occursb p s = true <-> occurs p s.
Proof. split; [apply occursb_true | apply occurs_occursb]. Qed.

Lemma occursb_false p s : occursb p s = false <-> ~ occurs p s.
Proof.
  rewrite <- occursb_iff. destruct (occursb p s); split; intros H;
    congruence || (exfalso; now apply H).
Qed.

Lemma occurs_trans p q s : occurs p q -> occurs q s -> occurs p s.
Proof.
  intros (x & y & ->) (x' & y' & ->).
  exists (x' ++ x), (y ++ y'). now rewrite <- !app_assoc.
Qed.

Lemma str_eqb_eq x y : str_eqb x y = true -> x = y.
Proof.
  revert y; induction x as [|a x IH]; intros [|b y]; simpl;
    try congruence.
  intros H. apply andb_true_iff in H as [Hab H].
  apply N.eqb_eq in Hab as ->. now rewrite (IH _ H).
Qed.

(** ** Overlaps *)

Lemma comparable_of_eq x y u v : x ++ u = y ++ v -> comparable x y = true.
Proof.
  intros E. unfold comparable.
  destruct (app_eq_app _ _ _ _ E) as [l [[-> _]|[-> _]]];
    rewrite prefix_app; auto using orb_true_r.
Qed.

Lemma In_tails (p u : str) : u <> [] -> In u (tails (p ++ u)).
Proof.
  intros Hu. induction p as [|c p IH]; simpl.
  - destruct u; [congruence|]. now left.
  - now right.
Qed.

(** A non-empty suffix [u] of [x] never starts an occurrence of [y], and
    [y] never starts inside it. *)
Lemma tails_apart x y p u a b :
  forallb (fun u => negb (comparable u y)) (tails x) = true ->
  x = p ++ u -> u <> [] -> u ++ a = y ++ b -> False.
Proof.
  intros Hall -> Hu E.
  rewrite forallb_forall in Hall.
  specialize (Hall u (In_tails p u Hu)).
  rewrite (comparable_of_eq _ _ _ _ E) in Hall. discriminate.
Qed.

(** An occurrence of [s] in [a ++ n ++ b] lies in [a] or in [b], when
    [s] and [n] cannot overlap. *)
Lemma overlap_free_sep s n x y a b :
  overlap_free s n = true ->
  x ++ s ++ y = a ++ n ++ b ->
  (exists k, a = x ++ s ++ k) \/ (exists k, x = a ++ n ++ k).
Proof.
  unfold overlap_free. intros H E.
  apply andb_true_iff in H as [Hs Hn].
  destruct (app_eq_app _ _ _ _ E) as [l [[-> E1]|[-> E1]]].
  - (* the occurrence starts at or after [n] *)
    destruct (app_eq_app _ _ _ _ E1) as [l' [[E2 E3]|[-> E3]]].
    + destruct l' as [|c l'].
      * right. exists []. rewrite app_nil_r in *. now subst.
      * exfalso.
        eapply tails_apart;
          [exact Hn | exact E2 | discriminate | symmetry; exact E3].
    + right. exists l'. now rewrite <- ?app_assoc.
  - (* the occurrence starts before [n] *)
    destruct (app_eq_app _ _ _ _ E1) as [l' [[E2 E3]|[-> E3]]].
    + destruct l' as [|c l'].
      * left. exists []. rewrite app_nil_r in *. now subst.
      * exfalso.
        eapply tails_apart;
          [exact Hs | exact E2 | discriminate | symmetry; exact E3].
    + left. exists l'. now rewrite <- ?app_assoc.
Qed.

Lemma overlap_free_nonempty s n : overlap_free s n = true -> s <> [] -> n <> [].
Proof.
  intros H Hs ->. unfold overlap_free in H.
  apply andb_true_iff in H as [H _].
  destruct s as [|c s]; [congruence|]. simpl in H.
  discriminate.
Qed.

(** Two occurrences of a border-free [s] are equal or disjoint. *)
Lemma border_free_sep s x y a b :
  border_free s = true ->
  x ++ s ++ y = a ++ s ++ b ->
  (exists k, a = x ++ s ++ k) \/ x = a \/ (exists k, x = a ++ s ++ k).
Proof.
  unfold border_free. intros H E.
  assert (Hprop : forall l l' u v, s = l ++ l' -> l <> [] -> l' <> [] ->
                                   l' ++ u = s ++ v -> False).
  { intros l l' u v Es Hl Hl' E'.
    rewrite forallb_forall in H.
    destruct l as [|c l]; [congruence|].
    assert (Hin : In l' (tl (tails s))).
    { rewrite Es. simpl. now apply In_tails. }
    specialize (H _ Hin).
    rewrite (comparable_of_eq _ _ _ _ E') in H. discriminate. }
  destruct (app_eq_app _ _ _ _ E) as [l [[-> E1]|[-> E1]]].
  - destruct l as [|c l].
    { right; left. now rewrite app_nil_r. }
    destruct (app_eq_app _ _ _ _ E1) as [l' [[E2 E3]|[-> E3]]].
    + destruct l' as [|c' l'].
      * right; right. exists []. rewrite app_nil_r in *. now subst.
      * exfalso.
        eapply Hprop; [exact E2 | discriminate.. | symmetry; exact E3].
    + right; right. exists l'. now rewrite <- ?app_assoc.
  - destruct l as [|c l].
    { right; left. now rewrite app_nil_r. }
    destruct (app_eq_app _ _ _ _ E1) as [l' [[E2 E3]|[-> E3]]].
    + destruct l' as [|c' l'].
      * left. exists []. rewrite app_nil_r in *. now subst.
      * exfalso.
        eapply Hprop; [exact E2 | discriminate.. | symmetry; exact E3].
    + left. exists l'. now rewrite <- ?app_assoc.
Qed.

(** ** What one replacement does to occurrences *)

(** A search literal that does not occur: the call returns its text. *)
Lemma replace_absent old new s :
  occursb old s = false -> replace old new s = s.
Proof.
  assert (Hold : occursb old s = false -> old <> []).
  { intros H ->. destruct s; discriminate. }
  induction s as [|c s IH]; intros H; specialize (Hold H).
  - now apply replace_nil.
  - simpl in H. apply orb_false_iff in H as [Hp H].
    rewrite replace_miss by assumption.
    rewrite IH; auto.
Qed.

(** A replacement that cannot overlap [p] creates no occurrence of [p].
    The statement is about a text in two parts: [w], already written,
    and the result of the scan of what is left. *)
Lemma replace_keeps_absent_from old new p :
  old <> [] -> overlap_free p new = true ->
  forall n s w, length s <= n ->
    ~ occurs p (w ++ s) -> ~ occurs p (w ++ replace old new s).
Proof.
  intros Hold Hfree. induction n as [|n IH]; intros s w Hlen Hno.
  - destruct s; [|simpl in Hlen; lia]. now rewrite replace_nil.
  - destruct s as [|c s]; [now rewrite replace_nil|].
    destruct (prefix old (c :: s)) eqn:Hp.
    + apply prefix_inv in Hp as [r Er]. rewrite Er in *.
      rewrite replace_hit by exact Hold. rewrite app_assoc.
      apply IH.
      { apply nonempty_length in Hold. rewrite length_app in Hlen. lia. }
      intros (x & y & E). apply Hno. rewrite <- app_assoc in E.
      symmetry in E.
      destruct (overlap_free_sep _ _ _ _ _ _ Hfree E) as [[k ->]|[k ->]].
      * exists x, (k ++ old ++ r). now rewrite <- !app_assoc.
      * rewrite <- !app_assoc in E. do 2 apply app_inv_head in E.
        exists (w ++ old ++ k), y. rewrite <- E. now rewrite <- !app_assoc.
    + rewrite replace_miss by assumption.
      change (w ++ c :: replace old new s)
        with (w ++ [c] ++ replace old new s).
      rewrite app_assoc. apply IH; [simpl in Hlen; lia|].
      now rewrite <- app_assoc.
Qed.

Lemma replace_keeps_absent old new p s :
  old <> [] -> overlap_free p new = true ->
  ~ occurs p s -> ~ occurs p (replace old new s).
Proof.
  intros Hold Hfree Hno.
  apply (replace_keeps_absent_from old new p Hold Hfree (length s) s []);
    auto.
Qed.

(** A replacement that cannot overlap its own search literal leaves no
    occurrence of it. *)
Lemma replace_removes_from old new :
  old <> [] -> overlap_free old new = true ->
  forall n s w, length s <= n ->
    (forall x y, w ++ s = x ++ old ++ y -> exists k, x = w ++ k) ->
    ~ occurs old (w ++ replace old new s).
Proof.
  intros Hold Hfree. pose proof (nonempty_length _ Hold) as Hpos.
  assert (Hend : forall w, (forall x y, w ++ [] = x ++ old ++ y ->
                                        exists k, x = w ++ k) ->
                           ~ occurs old (w ++ [])).
  { intros w Hall (x & y & E). destruct (Hall _ _ E) as [k ->]. lens. }
  induction n as [|n IH]; intros s w Hlen Hall.
  - destruct s; [|simpl in Hlen; lia]. rewrite replace_nil by exact Hold.
    now apply Hend.
  - destruct s as [|c s].
    { rewrite replace_nil by exact Hold. now apply Hend. }
    destruct (prefix old (c :: s)) eqn:Hp.
    + apply prefix_inv in Hp as [r Er]. rewrite Er in *.
      rewrite replace_hit by exact Hold. rewrite app_assoc.
      apply IH.
      { rewrite length_app in Hlen. lia. }
      intros x y E. rewrite <- app_assoc in E. symmetry in E.
      destruct (overlap_free_sep _ _ _ _ _ _ Hfree E) as [[k Ek]|[k ->]].
      * exfalso.
        destruct (Hall x (k ++ old ++ r)) as [k' ->].
        { rewrite Ek at 1. now rewrite <- !app_assoc. }
        clear - Ek Hpos. lens.
      * exists k. now rewrite <- app_assoc.
    + rewrite replace_miss by assumption.
      change (w ++ c :: replace old new s)
        with (w ++ [c] ++ replace old new s).
      rewrite app_assoc. apply IH; [simpl in Hlen; lia|].
      intros x y E. rewrite <- app_assoc in E. simpl in E.
      destruct (Hall _ _ E) as [k ->].
      rewrite <- app_assoc in E. apply app_inv_head in E.
      destruct k as [|c' k].
      * simpl in E. rewrite E, prefix_app in Hp. discriminate.
      * injection E as -> E. exists k. now rewrite <- app_assoc.
Qed.

Lemma replace_removes old new s :
  old <> [] -> overlap_free old new = true ->
  ~ occurs old (replace old new s).
Proof.
  intros Hold Hfree.
  apply (replace_removes_from old new Hold Hfree (length s) s []); auto.
  intros x y _. now exists x.
Qed.

(** ** Replacement in a text in several parts *)

(** When no match straddles the cut, the scan of [a ++ c] is the scan of
    [a] followed by the scan of [c]. *)
Lemma replace_app_from old new c :
  old <> [] ->
  forall n a, length a <= n ->
    (forall x y, a ++ c = x ++ old ++ y ->
                 (exists k, a = x ++ old ++ k) \/ (exists k, x = a ++ k)) ->
    replace old new (a ++ c) = replace old new a ++ replace old new c.
Proof.
  intros Hold. pose proof (nonempty_length _ Hold) as Hpos.
  induction n as [|n IH]; intros a Hlen Hcut.
  - destruct a; [|simpl in Hlen; lia]. now rewrite replace_nil.
  - destruct a as [|h a]; [now rewrite replace_nil|].
    destruct (prefix old ((h :: a) ++ c)) eqn:Hp.
    + apply prefix_inv in Hp as [r Er].
      destruct (Hcut [] r Er) as [[k Ek]|[k Ek]]; [|discriminate].
      simpl in Ek. rewrite Ek in *. rewrite <- app_assoc in *.
      apply app_inv_head in Er. subst r.
      rewrite !replace_hit by exact Hold. rewrite <- app_assoc.
      f_equal. apply IH.
      { rewrite length_app in Hlen. lia. }
      intros x y E.
      destruct (Hcut (old ++ x) y) as [[k' Ek']|[k' Ek']].
      { rewrite E. now rewrite <- !app_assoc. }
      * left. exists k'. rewrite <- !app_assoc in Ek'.
        now apply app_inv_head in Ek'.
      * right. exists k'. rewrite <- !app_assoc in Ek'.
        now apply app_inv_head in Ek'.
    + assert (Hp' : prefix old (h :: a) = false).
      { destruct (prefix old (h :: a)) eqn:Hq; [|reflexivity].
        apply prefix_inv in Hq as [r Er]. rewrite Er in Hp.
        now rewrite <- app_assoc, prefix_app in Hp. }
      simpl app in *. rewrite !replace_miss by assumption.
      simpl. f_equal. apply IH; [simpl in Hlen; lia|].
      intros x y E.
      destruct (Hcut (h :: x) y) as [[k Ek]|[k Ek]].
      { simpl. now rewrite E. }
      * left. exists k. now injection Ek.
      * right. exists k. now injection Ek.
Qed.

Lemma replace_app old new a c :
  old <> [] ->
  (forall x y, a ++ c = x ++ old ++ y ->
               (exists k, a = x ++ old ++ k) \/ (exists k, x = a ++ k)) ->
  replace old new (a ++ c) = replace old new a ++ replace old new c.
Proof.
  intros Hold Hcut. now apply (replace_app_from old new c Hold (length a)).
Qed.

(** When no match starts inside [m], the scan copies [m]. *)
Lemma replace_copy old new m b :
  old <> [] ->
  (forall x y, m ++ b = x ++ old ++ y -> exists k, x = m ++ k) ->
  replace old new (m ++ b) = m ++ replace old new b.
Proof.
  intros Hold. induction m as [|h m IH]; intros Hin; [reflexivity|].
  simpl. rewrite replace_miss.
  - f_equal. apply IH. intros x y E.
    destruct (Hin (h :: x) y) as [k Ek]; [simpl; now rewrite E|].
    exists k. now injection Ek.
  - exact Hold.
  - destruct (prefix old (h :: m ++ b)) eqn:Hp; [|reflexivity].
    apply prefix_inv in Hp as [r Er].
    destruct (Hin [] r Er) as [k Ek]. discriminate.
Qed.

(** A fragment [m] that the search literal cannot overlap is copied, and
    what is before and after it is scanned as if it stood alone. *)
Lemma replace_frame old new a m b :
  old <> [] -> overlap_free old m = true ->
  replace old new (a ++ m ++ b) =
  replace old new a ++ m ++ replace old new b.
Proof.
  intros Hold Hfree. pose proof (nonempty_length _ Hold) as Hpos.
  rewrite replace_app; [f_equal; apply replace_copy; [exact Hold|]|exact Hold|].
  - intros x y E. symmetry in E.
    destruct (overlap_free_sep old m x y [] b Hfree E) as [[k Ek]|[k ->]].
    + exfalso. clear - Ek Hpos. lens.
    + now exists k.
  - intros x y E. symmetry in E.
    destruct (overlap_free_sep old m x y a b Hfree E) as [[k Ek]|[k ->]].
    + left. now exists k.
    + right. now exists (m ++ k).
Qed.

(** An occurrence of a border-free search literal is replaced, and what
    is before and after it is scanned as if it stood alone. *)
Lemma replace_frame_hit old new a b :
  old <> [] -> border_free old = true ->
  replace old new (a ++ old ++ b) =
  replace old new a ++ new ++ replace old new b.
Proof.
  intros Hold Hfree.
  rewrite replace_app; [now rewrite replace_hit|exact Hold|].
  intros x y E. symmetry in E.
  destruct (border_free_sep old x y a b Hfree E) as [[k Ek]|[->|[k ->]]].
  - left. now exists k.
  - right. exists []. now rewrite app_nil_r.
  - right. now exists (old ++ k).
Qed.

(** The two checks by position say what they are meant to say. *)
Lemma straddles_false old a c :
  straddles old a c = false ->
  forall x y, a ++ c = x ++ old ++ y ->
    (exists k, a = x ++ old ++ k) \/ (exists k, x = a ++ k).
Proof.
  induction a as [|h a IH]; intros H x y E.
  - right. now exists x.
  - simpl in H. apply orb_false_iff in H as [H1 H2].
    destruct x as [|h' x].
    + left. simpl in E. rewrite E, prefix_app in H1. simpl in H1.
      apply Nat.ltb_ge in H1.
      change (h :: a ++ c) with ((h :: a) ++ c) in E.
      destruct (app_eq_app _ _ _ _ E) as [l [[El _]|[El _]]].
      * exists l. exact El.
      * exists []. rewrite app_nil_r. simpl.
        assert (l = []) as ->.
        { destruct l; [reflexivity|]. rewrite El in H1.
          rewrite length_app in H1. simpl in H1. lia. }
        rewrite app_nil_r in El. now rewrite El.
    + injection E as -> E.
      destruct (IH H2 _ _ E) as [[k ->]|[k ->]].
      * left. now exists k.
      * right. now exists k.
Qed.

Lemma starts_in_false old m b :
  starts_in old m b = false ->
  forall x y, m ++ b = x ++ old ++ y -> exists k, x = m ++ k.
Proof.
  induction m as [|h m IH]; intros H x y E.
  - now exists x.
  - simpl in H. apply orb_false_iff in H as [H1 H2].
    destruct x as [|h' x].
    + simpl in E. rewrite E, prefix_app in H1. discriminate.
    + injection E as -> E. destruct (IH H2 _ _ E) as [k ->]. now exists k.
Qed.

(** A fragment that no match touches is copied. *)
Lemma replace_untouched old new a m b :
  old <> [] -> touches old a m b = false ->
  replace old new (a ++ m ++ b) =
  replace old new a ++ m ++ replace old new b.
Proof.
  intros Hold H. apply orb_false_iff in H as [H1 H2].
  rewrite replace_app; [f_equal; apply replace_copy; [exact Hold|]|exact Hold|].
  - now apply starts_in_false.
  - now apply straddles_false.
Qed.

(** ** Lists of rules *)

Lemma rules_nonempty : Forall nonempty_search rules.
Proof.
  repeat constructor; intros H; vm_compute in H; discriminate H.
Qed.

Lemma specific_rules_nonempty : Forall nonempty_search specific_rules.
Proof.
  pose proof rules_nonempty as H. unfold rules in H.
  now apply Forall_app in H.
Qed.

Lemma update_html_run html : update_html html = run rules html.
Proof. reflexivity. Qed.

Lemma run_cons old new rs d :
  run ((old, new) :: rs) d = run rs (replace old new d).
Proof. reflexivity. Qed.

Lemma run_app rs rs' d : run (rs ++ rs') d = run rs' (run rs d).
Proof. apply fold_left_app. Qed.

Lemma str_eqb_refl x : str_eqb x x = true.
Proof. induction x; simpl; [reflexivity|]. now rewrite N.eqb_refl. Qed.

Lemma str_neq x y : str_eqb x y = false -> x <> y.
Proof. intros H ->. rewrite str_eqb_refl in H. discriminate. Qed.

(** Rules whose search literals do not occur change nothing. *)
Lemma run_noop rs d : none_occurs rs d = true -> run rs d = d.
Proof.
  unfold none_occurs. induction rs as [|[old new] rs IH]; intros H.
  - reflexivity.
  - simpl in H. apply andb_true_iff in H as [H1 H2].
    apply negb_true_iff in H1.
    rewrite run_cons, (replace_absent _ _ _ H1). now apply IH.
Qed.

(** The static check [absent_after] is sound. *)
Lemma absent_after_sound rs :
  Forall nonempty_search rs ->
  forall s absent d,
    (absent = true -> ~ occurs s d) ->
    absent_after s rs absent = true ->
    ~ occurs s (run rs d).
Proof.
  induction 1 as [|[old new] rs Hold _ IH]; intros s absent d Habs Hchk.
  - simpl in *. now apply Habs.
  - rewrite run_cons. simpl in Hchk. unfold nonempty_search in Hold.
    simpl in Hold. eapply IH; [|exact Hchk].
    intros H. apply orb_true_iff in H as [H|H];
      apply andb_true_iff in H as [H1 H2].
    + intros Hocc. apply (replace_removes old new d Hold H2).
      apply occursb_true in H1. exact (occurs_trans _ _ _ H1 Hocc).
    + apply replace_keeps_absent; auto.
Qed.

(** The static check [track] is sound. *)
Lemma track_sound rs :
  Forall nonempty_search rs ->
  forall m m', track rs m = Some m' ->
  forall a b, run rs (a ++ m ++ b) = run rs a ++ m' ++ run rs b.
Proof.
  induction 1 as [|[old new] rs Hold _ IH]; intros m m' Ht a b.
  - simpl in Ht. now injection Ht as ->.
  - rewrite !run_cons. simpl in Ht. unfold nonempty_search in Hold.
    simpl in Hold.
    destruct (str_eqb old m) eqn:Heq.
    + apply str_eqb_eq in Heq as <-.
      destruct (border_free old) eqn:Hb; [|discriminate].
      rewrite replace_frame_hit by assumption. now apply IH.
    + destruct (overlap_free old m) eqn:Hf; [|discriminate].
      rewrite replace_frame by assumption. now apply IH.
Qed.

(** The check by position [untouched] is sound. *)
Lemma untouched_sound rs :
  Forall nonempty_search rs ->
  forall a m b, untouched rs a m b = true ->
  run rs (a ++ m ++ b) = run rs a ++ m ++ run rs b.
Proof.
  induction 1 as [|[old new] rs Hold _ IH]; intros a m b Hu.
  - reflexivity.
  - rewrite !run_cons. simpl in Hu. unfold nonempty_search in Hold.
    simpl in Hold. apply andb_true_iff in Hu as [H1 H2].
    apply negb_true_iff in H1.
    rewrite replace_untouched by assumption. now apply IH.
Qed.

(** ** The replacement of the specification *)

(** A text has no occurrence of [old], or a leftmost one. *)
Lemma first_occurrence old s :
  old <> [] ->
  ~ occurs old s \/ exists a b, s = a ++ old ++ b /\ leftmost old a b.
Proof.
  intros Hold. induction s as [|c s IH].
  - left. intros (x & y & E). apply nonempty_length in Hold. lens.
  - destruct (prefix old (c :: s)) eqn:Hp.
    + right. apply prefix_inv in Hp as [r Er].
      exists [], r. split; [exact Er|]. intros x y _. now exists x.
    + destruct IH as [Hno|(a & b & -> & Hleft)].
      * left. intros (x & y & E). destruct x as [|c' x].
        -- simpl in E. rewrite E, prefix_app in Hp. discriminate.
        -- injection E as -> E. apply Hno. now exists x, y.
      * right. exists (c :: a), b. split; [reflexivity|].
        intros x y E. destruct x as [|c' x].
        -- simpl in E. rewrite E, prefix_app in Hp. discriminate.
        -- injection E as -> E. destruct (Hleft _ _ E) as [k ->].
           now exists k.
Qed.

(** The scan replaces the leftmost occurrence and goes on after it. *)
Lemma replace_leftmost old new a b :
  old <> [] -> leftmost old a b ->
  replace old new (a ++ old ++ b) = a ++ new ++ replace old new b.
Proof.
  intros Hold Hleft. rewrite replace_copy by assumption.
  now rewrite replace_hit.
Qed.

Lemma replace_all_unique old new s t :
  old <> [] -> replace_all old new s t -> t = replace old new s.
Proof.
  intros Hold. induction 1 as [s Hno|a b b' Hleft _ IH].
  - symmetry. apply replace_absent. now apply occursb_false.
  - rewrite replace_leftmost by assumption. now rewrite IH.
Qed.

Lemma replace_all_replace old new :
  old <> [] -> forall n s, length s <= n ->
  replace_all old new s (replace old new s).
Proof.
  intros Hold. pose proof (nonempty_length _ Hold) as Hpos.
  induction n as [|n IH]; intros s Hlen;
    destruct (first_occurrence old s Hold) as [Hno|(a & b & -> & Hleft)].
  - rewrite replace_absent by (now apply occursb_false). now constructor.
  - exfalso. rewrite !length_app in Hlen. lia.
  - rewrite replace_absent by (now apply occursb_false). now constructor.
  - rewrite replace_leftmost by assumption.
    constructor; [exact Hleft|]. apply IH. rewrite !length_app in Hlen. lia.
Qed.

Lemma fold_rules_run rs :
  Forall nonempty_search rs -> forall d, fold_rules rs d (run rs d).
Proof.
  induction 1 as [|[old new] rs Hold _ IH]; intros d.
  - constructor.
  - rewrite run_cons. econstructor; [|apply IH].
    now apply (replace_all_replace old new Hold (length d)).
Qed.

Lemma fold_rules_unique rs :
  Forall nonempty_search rs ->
  forall d d', fold_rules rs d d' -> d' = run rs d.
Proof.
  induction 1 as [|[old new] rs Hold _ IH]; intros d d' Hf;
    inversion Hf; subst.
  - reflexivity.
  - rewrite run_cons.
    match goal with
    | H : replace_all _ _ _ _ |- _ =>
        apply (replace_all_unique _ _ _ _ Hold) in H; subst
    end.
    now apply IH.
Qed.

(** ** The calls on small texts *)

Example replace_all_occurrences :
  replace (lit "ab") (lit "X") (lit "cababab") = lit "cXXX".
Proof. vm_compute. reflexivity. Qed.

Example replace_leftmost_first :
  replace (lit "aa") (lit "b") (lit "aaa") = lit "ba".
Proof. vm_compute. reflexivity. Qed.

Example replace_is_one_pass :
  replace (lit "ab") (lit "a") (lit "abb") = lit "ab".
Proof. vm_compute. reflexivity. Qed.

Example replace_empty_search :
  replace [] (lit "-") (lit "abc") = lit "-a-b-c-".
Proof. vm_compute. reflexivity. Qed.

Example update_html_hazard_flat :
  update_html hazard_flat_old = hazard_flat_new.
Proof. vm_compute. reflexivity. Qed.

Example update_html_generic_attr :
  update_html (lit "<a data-tooltip='Valve' data-tooltip-desc='Open.'>") =
  lit "<a data-tooltip='Valve' data-tooltip-short='Open.'>".
Proof. vm_compute. reflexivity. Qed.

Example sweep_first_hazard_flat :
  sweep_first hazard_flat_old =
  lit "data-tooltip='Hazard Engine' data-tooltip-short='Inject and simulate physical failure events.'".
Proof. vm_compute. reflexivity. Qed.

Example collapse_ws_isolation :
  collapse_ws isolation_pretty_new = isolation_flat_new.
Proof. vm_compute. reflexivity. Qed.

(** ** The claims about the rewrite *)

Lemma rules_checked :
  forallb (fun r => absent_after (fst r) rules false) rules = true.
Proof. vm_compute. reflexivity. Qed.

(** After a run, no search literal is left in the document. *)
Lemma search_literals_gone d : none_occurs rules (update_html d) = true.
Proof.
  unfold none_occurs. apply forallb_forall. intros r Hin.
  apply negb_true_iff, occursb_false. rewrite update_html_run.
  apply (absent_after_sound rules rules_nonempty (fst r) false d).
  - discriminate.
  - pose proof rules_checked as H. rewrite forallb_forall in H.
    now apply H.
Qed.

(** C1.  The rewrite is idempotent: for every document [d], rewriting
    the rewritten document gives the rewritten document again, and each
    of the fifteen rules leaves the rewritten document as it is. *)
Theorem rewrite_idempotent (d : str) :
  update_html (update_html d) = update_html d /\
  Forall (fun r => apply_rule (update_html d) r = update_html d) rules.
Proof.
  pose proof (search_literals_gone d) as Hgone. split.
  - rewrite (update_html_run (update_html d)). now apply run_noop.
  - apply Forall_forall. intros r Hin. unfold apply_rule.
    apply replace_absent. unfold none_occurs in Hgone.
    rewrite forallb_forall in Hgone. apply negb_true_iff. now apply Hgone.
Qed.

(** C2.  The order of the rules matters and the generic sweep is the
    last rule: the rules are the context-specific ones followed by the
    sweep, and there is a document for which running the sweep first
    gives another result than the program. *)
Theorem sweep_order_matters :
  rules = specific_rules ++ [sweep] /\
  (forall d, update_html d = apply_rule (run specific_rules d) sweep) /\
  exists d, sweep_first d <> update_html d.
Proof.
  split; [reflexivity|]. split; [reflexivity|].
  exists hazard_flat_old. apply str_neq. vm_compute. reflexivity.
Qed.

(** C3.  For every document, the output of the program is the result of
    folding the fixed list of rules over it, each rule replacing all the
    occurrences of its search literal, leftmost first and without
    overlap, in the result of the rule before; that result is unique. *)
Theorem update_html_is_fold (d : str) :
  update_html d = fold_left apply_rule rules d /\
  fold_rules rules d (update_html d) /\
  (forall d', fold_rules rules d d' -> d' = update_html d).
Proof.
  split; [reflexivity|]. split.
  - rewrite update_html_run. apply fold_rules_run, rules_nonempty.
  - intros d' H. rewrite update_html_run.
    now apply fold_rules_unique; [apply rules_nonempty|].
Qed.

Lemma migrates_of_track r : track rules (fst r) = Some (snd r) -> migrates r.
Proof.
  intros H a b. rewrite !update_html_run.
  now apply track_sound; [apply rules_nonempty|].
Qed.



(** C6.  A document in which no search literal occurs is returned
    unchanged, and a rule whose search literal does not occur in the
    current document leaves it unchanged; [update_html] and [replace]
    are total functions, so nothing is raised. *)
Theorem no_match_safety (d : str) :
  (none_occurs rules d = true -> update_html d = d) /\
  (forall r, occursb (fst r) d = false -> apply_rule d r = d).
Proof.
  split.
  - intros H. rewrite update_html_run. now apply run_noop.
  - intros r H. now apply replace_absent.
Qed.

Lemma no_match_safety_witness :
  none_occurs rules (lit "<p class='note'>data-tooltip</p>") = true /\
  update_html (lit "<p class='note'>data-tooltip</p>") =
  lit "<p class='note'>data-tooltip</p>" /\
  occursb (fst sweep) (lit "<p class='note'>data-tooltip</p>") = false /\
  apply_rule (lit "<p class='note'>data-tooltip</p>") sweep =
  lit "<p class='note'>data-tooltip</p>".
Proof.
  split; [vm_compute; reflexivity|]. split.
  - apply (proj1 (no_match_safety _)). vm_compute. reflexivity.
  - split; [vm_compute; reflexivity|].
    apply (proj2 (no_match_safety _)). vm_compute. reflexivity.
Defined.

(** C10.  No document has an occurrence of [data-tooltip-desc] left
    after the rewrite. *)
Theorem no_desc_marker_left (d : str) :
  occursb desc_marker (update_html d) = false.
Proof.
  pose proof (search_literals_gone d) as H. unfold none_occurs in H.
  rewrite forallb_forall in H. apply negb_true_iff, (H sweep).
  unfold rules. apply in_or_app. right. now left.
Qed.

(** ** The generic sweep on an attribute *)

(** A search literal that is not a prefix of [m], and that has no [q],
    is not a prefix of [m] followed by [q] and more. *)
Lemma prefix_sealed old q b :
  existsb (N.eqb q) old = false ->
  forall m, prefix old m = false -> prefix old (m ++ q :: b) = false.
Proof.
  induction old as [|o old IH]; intros Hq m Hm; [discriminate|].
  simpl in Hq. apply orb_false_iff in Hq as [Hqo Hq].
  destruct m as [|c m]; simpl in *.
  - rewrite N.eqb_sym, Hqo. reflexivity.
  - destruct (N.eqb o c); simpl in *; [now apply IH|reflexivity].
Qed.

(** No occurrence of [old] starts inside a text that ends with a
    character [old] has not and in which [old] does not occur. *)
Lemma starts_in_sealed old q b :
  existsb (N.eqb q) old = false ->
  forall m, occursb old m = false -> starts_in old (m ++ [q]) b = false.
Proof.
  intros Hq. induction m as [|c m IH]; intros Hm.
  - simpl in Hm. rewrite orb_false_r in Hm.
    simpl starts_in. rewrite orb_false_r.
    now apply (prefix_sealed old q b Hq []).
  - simpl in Hm. apply orb_false_iff in Hm as [Hp Hm].
    simpl starts_in. rewrite (IH Hm), orb_false_r.
    rewrite <- app_assoc.
    now apply (prefix_sealed old q b Hq (c :: m)).
Qed.

Lemma desc_marker_head : exists t, desc_marker = 100%N :: t.
Proof. eexists. vm_compute. reflexivity. Qed.

(** C5, as the code has it.  An attribute [data-tooltip-desc="x"] that
    no match of an earlier, context-specific rule touches, and whose
    value [x] holds no [data-tooltip-desc] itself, becomes
    [data-tooltip-short="x"] with the same [x], at the same place: what
    is before and after it is rewritten as if it stood alone. *)
Theorem desc_scenario (a x b : str) :
  untouched specific_rules a (desc_attr x) b = true ->
  occursb desc_marker x = false ->
  update_html (a ++ desc_attr x ++ b) =
  update_html a ++ short_attr x ++ update_html b.
Proof.
  intros Hu Hx. rewrite !update_html_run. unfold rules.
  rewrite !run_app.
  rewrite (untouched_sound _ specific_rules_nonempty _ _ _ Hu).
  set (a' := run specific_rules a). set (b' := run specific_rules b).
  change (run [sweep] ?d) with (replace desc_marker short_marker d).
  assert (Hne : desc_marker <> []).
  { intros H. vm_compute in H. discriminate H. }
  assert (Hbf : border_free desc_marker = true)
    by (vm_compute; reflexivity).
  unfold desc_attr, short_attr. rewrite <- !app_assoc.
  rewrite replace_frame_hit by assumption. do 2 f_equal.
  change (lit "='") with [61%N; 34%N]. change (lit "'") with [34%N].
  rewrite !app_assoc. rewrite replace_copy; [reflexivity|exact Hne|].
  apply starts_in_false. rewrite <- app_assoc.
  change ([61%N; 34%N] ++ x ++ [34%N]) with ((61%N :: 34%N :: x) ++ [34%N]).
  apply (starts_in_sealed desc_marker 34%N b');
    [vm_compute; reflexivity|].
  destruct desc_marker_head as [t Et]. cbn [occursb]. rewrite Hx, Et.
  reflexivity.
Qed.

Lemma desc_scenario_witness :
  untouched specific_rules (lit "<a class='neptune-tooltip' ")
    (desc_attr (lit "Open the valve.")) (lit ">Valve</a>") = true /\
  occursb desc_marker (lit "Open the valve.") = false /\
  update_html (lit "<a class='neptune-tooltip' " ++
               desc_attr (lit "Open the valve.") ++ lit ">Valve</a>") =
  update_html (lit "<a class='neptune-tooltip' ") ++
  short_attr (lit "Open the valve.") ++ update_html (lit ">Valve</a>").
Proof.
  split; [vm_compute; reflexivity|]. split; [vm_compute; reflexivity|].
  apply desc_scenario; vm_compute; reflexivity.
Defined.

(** C5, as the claim has it, fails: the value [data-tooltip-desc] of an
    attribute [data-tooltip-desc] is touched by no earlier rule, and is
    not preserved. *)
Lemma desc_value_rewritten :
  untouched specific_rules [] (desc_attr desc_marker) [] = true /\
  update_html ([] ++ desc_attr desc_marker ++ []) = short_attr short_marker /\
  occursb (short_attr desc_marker)
    (update_html ([] ++ desc_attr desc_marker ++ [])) = false.
Proof. vm_compute. repeat split. Qed.

(** ** The two variants of a target *)

Ltac in_rules :=
  unfold rules, specific_rules; cbn [app];
  repeat match goal with
         | |- In ?r (?r :: _) => left; reflexivity
         | |- In _ (_ :: _) => right
         end.

Ltac variant_ok :=
  cbn [fst snd];
  refine (conj _ (conj _ (conj _ (conj _ (conj _ _)))));
  [ in_rules | in_rules
  | apply migrates_of_track; vm_compute; reflexivity
  | apply migrates_of_track; vm_compute; reflexivity
  | vm_compute; reflexivity
  | vm_compute; reflexivity ].

(** C7.  For each target with two variants, both rules are in the
    program, which applies all its rules on every run; each variant is
    migrated wherever it stands; the two search literals have the same
    content and differ only in their white space, and so do the two
    replacements: the flattened and the pretty-printed form are migrated
    to the same content. *)
Theorem variant_coverage :
  Forall (fun v =>
            In (fst v) rules /\ In (snd v) rules /\
            migrates (fst v) /\ migrates (snd v) /\
            same_up_to_space (fst (fst v)) (fst (snd v)) /\
            same_up_to_space (snd (fst v)) (snd (snd v)))
         dual_variants.
Proof.
  unfold dual_variants.
  repeat (apply Forall_cons; [variant_ok|]). apply Forall_nil.
Qed.

(** The content is the same and the layout is kept: as strings, the
    two migrated forms of the Sector Stability attributes differ by
    their run of white space, the pretty-printed one keeping its line
    break and indentation. *)
Lemma variants_differ :
  update_html stability_flat_old = stability_flat_new /\
  update_html stability_pretty_old = stability_pretty_new /\
  stability_flat_new <> stability_pretty_new /\
  occursb stability_flat_new (update_html stability_pretty_old) = false.
Proof.
  split; [vm_compute; reflexivity|]. split; [vm_compute; reflexivity|].
  split; [apply str_neq; vm_compute; reflexivity|].
  vm_compute. reflexivity.
Qed.

(** ** The script and its files *)

Import Os.

(** Runs the script symbolically: one case for each outcome of each call
    to the operating system. *)
Ltac exec_script :=
  unfold run_script, main, bind, with_open, do_open, do_read, do_write,
    do_close;
  cbn [fst snd];
  repeat match goal with
         | |- context [sys_open ?s ?p ?m ?e ?w] =>
             destruct (sys_open s p m e w) as [? [?|?]]; cbn [fst snd app]
         | |- context [sys_read ?s ?f ?w] =>
             destruct (sys_read s f w) as [? [?|?]]; cbn [fst snd app]
         | |- context [sys_write ?s ?f ?d ?w] =>
             destruct (sys_write s f d w) as [? [?|[]]]; cbn [fst snd app]
         | |- context [sys_close ?s ?f ?w] =>
             destruct (sys_close s f w) as [? [?|[]]]; cbn [fst snd app]
         end.

(** C8.  The outcome of a run is told by the file operations alone:
    success when none raised, and else the exception raised last; after
    the first exception nothing is done but closing the file, so no call
    is tried again and no later step runs; and when opening the file for
    reading or reading it raised, nothing is opened for writing or
    written, so that the files in memory are the ones before the run. *)
Theorem io_errors_propagate (sys : system) (w : world sys) :
  let log := snd (fst (run_script sys w)) in
  snd (run_script sys w) = outcome_of log /\
  stops_at_failure log = true /\
  (read_failed log = true -> nothing_written log = true) /\
  (forall fs : files,
     read_failed (snd (fst (run_script mem_system fs))) = true ->
     fst (fst (run_script mem_system fs)) = fs).
Proof.
  cbv zeta. split; [|split; [|split]].
  - exec_script; reflexivity.
  - exec_script; reflexivity.
  - exec_script; cbn; intros H; try reflexivity; discriminate H.
  - intros fs. unfold run_script, main, bind, with_open, do_open, do_read,
      do_write, do_close.
    generalize update_html; intros u.
    unfold mem_system.
    cbn [mem_system_on sys_open sys_read sys_write sys_close fst snd].
    unfold mem_open, mem_read, mem_write, mem_close, put.
    destruct (fs "index.html"%string) as [[[s|] [|] [|]]|] eqn:E;
      cbn; repeat (rewrite E; cbn);
      try reflexivity; intros H; discriminate H.
Qed.

Lemma io_errors_propagate_witness :
  read_failed (snd (fst (run_script mem_system no_files))) = true /\
  snd (run_script mem_system no_files) = inl FileNotFoundError /\
  nothing_written (snd (fst (run_script mem_system no_files))) = true /\
  fst (fst (run_script mem_system no_files)) = no_files.
Proof.
  pose proof (io_errors_propagate mem_system no_files) as H.
  cbv zeta in H. destruct H as (H1 & _ & H3 & H4).
  assert (Hr : read_failed (snd (fst (run_script mem_system no_files))) = true)
    by reflexivity.
  split; [exact Hr|]. split; [rewrite H1; reflexivity|].
  split; [exact (H3 Hr)|exact (H4 no_files Hr)].
Defined.

(** C9.  Whatever the operating system does, the script opens
    [index.html] for reading with the encoding [utf-8] and, when it gets
    that far, the same [index.html] for writing (mode [w], which empties
    the file first) with the same encoding [utf-8], and opens nothing
    else; a run that succeeds has read a text and written the rewritten
    text; in the file system in memory, on either platform, the file
    then holds the rewrite of the text that was read, stored with the
    line ends of the platform, and nothing of what it held before. *)
Theorem same_file_same_encoding (sys : system) (w : world sys) :
  let log := snd (fst (run_script sys w)) in
  (opens log = [("index.html", "r", "utf-8")]%string \/
   opens log = [("index.html", "r", "utf-8");
                ("index.html", "w", "utf-8")]%string) /\
  (snd (run_script sys w) = inr tt ->
   exists html,
     log = [EvOpen "index.html" "r" "utf-8" None; EvRead (inr html);
            EvClose None;
            EvOpen "index.html" "w" "utf-8" None;
            EvWrite (update_html html) None; EvClose None]) /\
  (forall p s,
     fst (fst (run_script (mem_system_on p) (one_file s)))
       "index.html"%string =
     Some {| f_content := Text (rewritten p s); f_readable := true;
             f_writable := true |}).
Proof.
  cbv zeta. split; [|split].
  - exec_script; cbn [opens]; auto.
  - exec_script; intros H; try discriminate H. eexists. reflexivity.
  - intros p s. unfold rewritten, run_script, main, bind, with_open, do_open,
      do_read, do_write, do_close.
    generalize update_html; intros u. reflexivity.
Qed.

Lemma same_file_same_encoding_witness :
  snd (run_script mem_system (one_file bio_old)) = inr tt /\
  exists html,
    snd (fst (run_script mem_system (one_file bio_old))) =
    [EvOpen "index.html" "r" "utf-8" None; EvRead (inr html);
     EvClose None;
     EvOpen "index.html" "w" "utf-8" None;
     EvWrite (update_html html) None; EvClose None].
Proof.
  split; [vm_compute; reflexivity|].
  apply (proj1 (proj2 (same_file_same_encoding mem_system (one_file bio_old)))).
  vm_compute. reflexivity.
Defined.

(** * Further properties of the rewrite *)

(** ** Lengths *)

Lemma replace_length_from old new :
  old <> [] -> length old <= length new ->
  forall n s, length s <= n -> length s <= length (replace old new s).
Proof.
  intros Hold Hlen. pose proof (nonempty_length _ Hold) as Hpos.
  induction n as [|n IH]; intros s Hs.
  - destruct s; [|simpl in Hs; lia]. rewrite replace_nil by exact Hold.
    simpl. lia.
  - destruct s as [|c s].
    { rewrite replace_nil by exact Hold. simpl. lia. }
    destruct (prefix old (c :: s)) eqn:Hp.
    + apply prefix_inv in Hp as [r Er]. rewrite Er in *.
      rewrite replace_hit by exact Hold. rewrite !length_app in *.
      specialize (IH r). lia.
    + rewrite replace_miss by assumption. simpl in *.
      specialize (IH s). lia.
Qed.

Lemma replace_length old new s :
  old <> [] -> length old <= length new ->
  length s <= length (replace old new s).
Proof.
  intros Hold Hlen. now apply (replace_length_from old new Hold Hlen (length s)).
Qed.

(** A replacement longer than its search literal: the text keeps its
    length only when it is unchanged. *)
Lemma replace_same_length old new s :
  old <> [] -> length old < length new ->
  length (replace old new s) = length s -> replace old new s = s.
Proof.
  intros Hold Hlt Hsame.
  destruct (first_occurrence old s Hold) as [Hno|(a & b & -> & Hleft)].
  - apply replace_absent. now apply occursb_false.
  - exfalso. rewrite replace_leftmost in Hsame by assumption.
    pose proof (replace_length old new b Hold ltac:(lia)) as Hb.
    rewrite !length_app in Hsame. lia.
Qed.

Lemma run_length rs :
  Forall nonempty_search rs -> all_grow rs = true ->
  forall d, length d <= length (run rs d) /\
            (length (run rs d) = length d -> run rs d = d).
Proof.
  unfold all_grow.
  induction 1 as [|[old new] rs Hold _ IH]; intros Hg d.
  - simpl. auto.
  - simpl in Hg. apply andb_true_iff in Hg as [Hlt Hg].
    cbn [fst snd] in Hlt. apply Nat.ltb_lt in Hlt.
    unfold nonempty_search in Hold. cbn [fst] in Hold.
    rewrite run_cons. destruct (IH Hg (replace old new d)) as [Hle Heq].
    pose proof (replace_length old new d Hold ltac:(lia)) as Hr.
    split; [lia|]. intros Hsame.
    assert (Hd : replace old new d = d).
    { apply replace_same_length; [assumption..|lia]. }
    rewrite Hd in *. now apply Heq.
Qed.

(** ** Rules that can run in either order *)

Lemma overlap_free_sym x y : overlap_free x y = overlap_free y x.
Proof. unfold overlap_free. apply andb_comm. Qed.

Lemma leftmost_absent old a b : old <> [] -> leftmost old a b -> ~ occurs old a.
Proof.
  intros Hold Hleft (x & y & ->). apply nonempty_length in Hold.
  destruct (Hleft x (y ++ old ++ b)) as [k Ek].
  { now rewrite <- !app_assoc. }
  clear Hleft. lens.
Qed.

Lemma replace_commute o1 n1 o2 n2 :
  o1 <> [] -> o2 <> [] -> border_free o2 = true ->
  overlap_free o1 o2 = true -> overlap_free o1 n2 = true ->
  overlap_free o2 n1 = true ->
  forall n s, length s <= n ->
    replace o2 n2 (replace o1 n1 s) = replace o1 n1 (replace o2 n2 s).
Proof.
  intros H1 H2 Hb H12 H1n H2n. pose proof (nonempty_length _ H2) as Hpos.
  assert (Hkeep : forall t, ~ occurs o2 t ->
                            replace o2 n2 (replace o1 n1 t) = replace o1 n1 t).
  { intros t Ht. apply replace_absent, occursb_false.
    now apply replace_keeps_absent. }
  induction n as [|n IH]; intros s Hs;
    destruct (first_occurrence o2 s H2) as [Hno|(a & b & -> & Hleft)].
  - rewrite (Hkeep s Hno).
    now rewrite (replace_absent o2 n2 s) by (now apply occursb_false).
  - exfalso. rewrite !length_app in Hs. lia.
  - rewrite (Hkeep s Hno).
    now rewrite (replace_absent o2 n2 s) by (now apply occursb_false).
  - rewrite (replace_leftmost o2 n2 a b H2 Hleft).
    rewrite (replace_frame o1 n1 a n2 _ H1 H1n).
    rewrite (replace_frame o1 n1 a o2 b H1 H12).
    rewrite (replace_frame_hit o2 n2 _ _ H2 Hb).
    rewrite (Hkeep a (leftmost_absent o2 a b H2 Hleft)).
    do 2 f_equal. apply IH. rewrite !length_app in Hs. lia.
Qed.

Lemma independent_commute r1 r2 :
  nonempty_search r1 -> nonempty_search r2 ->
  independent r1 r2 = true -> commute r1 r2.
Proof.
  destruct r1 as [o1 n1], r2 as [o2 n2]. unfold nonempty_search, independent.
  cbn [fst snd]. intros H1 H2 H.
  repeat (apply andb_true_iff in H as [H ?]).
  intros d. unfold apply_rule. cbn [fst snd].
  now apply (replace_commute o1 n1 o2 n2) with (n := length d).
Qed.

Lemma rule_eqb_eq r1 r2 : rule_eqb r1 r2 = true -> r1 = r2.
Proof.
  destruct r1, r2. unfold rule_eqb. cbn [fst snd]. intros H.
  apply andb_true_iff in H as [Ha Hb].
  now rewrite (str_eqb_eq _ _ Ha), (str_eqb_eq _ _ Hb).
Qed.

Lemma pairwise_commute rs :
  Forall nonempty_search rs -> pairwise_independent rs = true ->
  forall r1 r2, In r1 rs -> In r2 rs -> commute r1 r2.
Proof.
  intros Hne Hp r1 r2 Hin1 Hin2. unfold pairwise_independent in Hp.
  rewrite forallb_forall in Hp. specialize (Hp r1 Hin1).
  rewrite forallb_forall in Hp. specialize (Hp r2 Hin2).
  rewrite Forall_forall in Hne.
  apply orb_true_iff in Hp as [Heq|Hind].
  - apply rule_eqb_eq in Heq as ->. intros d. reflexivity.
  - apply independent_commute; auto.
Qed.

Lemma run_permutation rs rs' :
  (forall r1 r2, In r1 rs -> In r2 rs -> commute r1 r2) ->
  Permutation rs rs' -> forall d, run rs d = run rs' d.
Proof.
  intros Hc Hp. induction Hp as [|x l l' Hp IH|x y l|l l' l'' Hp1 IH1 Hp2 IH2];
    intros d.
  - reflexivity.
  - unfold run. simpl. apply IH. intros r1 r2 H1 H2.
    apply Hc; now right.
  - unfold run. simpl. f_equal. apply (Hc y x); simpl; auto.
  - rewrite IH1 by assumption. apply IH2. intros r1 r2 H1 H2.
    apply Hc; eapply Permutation_in; try eassumption;
      now apply Permutation_sym.
Qed.

Lemma specific_rules_independent :
  pairwise_independent specific_rules = true.
Proof. vm_compute. reflexivity. Qed.

(** The sweep goes through rules it is independent of. *)
Lemma sweep_through post :
  Forall nonempty_search post ->
  forallb (fun r => independent r sweep) post = true ->
  forall d, run (sweep :: post) d = run (post ++ [sweep]) d.
Proof.
  induction 1 as [|r post Hr _ IH]; intros Hind d; [reflexivity|].
  simpl in Hind. apply andb_true_iff in Hind as [Hrs Hind].
  assert (Hs : nonempty_search sweep).
  { intros H. vm_compute in H. discriminate H. }
  pose proof (independent_commute r sweep Hr Hs Hrs d) as Hc.
  unfold run in *. simpl. rewrite <- Hc. apply (IH Hind).
Qed.

(** ** What a run leaves, keeps and lengthens *)

(** X1.  After the rewrite, the document holds none of the fifteen
    search literals. *)
Theorem no_search_literal_left (d : str) :
  none_occurs rules (update_html d) = true.
Proof. apply search_literals_gone. Qed.

(** X2.  The documents the rewrite leaves unchanged are exactly those
    in which no search literal occurs. *)
Theorem unchanged_iff_no_literal (d : str) :
  update_html d = d <-> none_occurs rules d = true.
Proof.
  split.
  - intros H. rewrite <- H. apply search_literals_gone.
  - intros H. rewrite update_html_run. now apply run_noop.
Qed.

(** X3.  The rewrite never shortens a document, and a document that
    keeps its length is unchanged: every replacement is longer than its
    search literal. *)
Theorem never_shorter (d : str) :
  length d <= length (update_html d) /\
  (length (update_html d) = length d -> update_html d = d).
Proof.
  rewrite update_html_run. apply run_length.
  - apply rules_nonempty.
  - vm_compute. reflexivity.
Qed.

Ltac all_rules tac :=
  unfold rules, specific_rules; cbn [app];
  repeat (apply Forall_cons; [tac|]); apply Forall_nil.

(** X4.  Each of the fourteen context-specific rules migrates its search
    literal wherever it stands: the literal becomes the replacement, and
    the text before and after it is rewritten as if it stood alone. *)
Theorem specific_rules_migrate : Forall migrates specific_rules.
Proof.
  all_rules ltac:(apply migrates_of_track; vm_compute; reflexivity).
Qed.

(** X5.  A fragment that is already migrated is left as it is, wherever
    it stands: no rule touches the replacement literal of any rule. *)
Theorem replacements_stay : Forall (fun r => stays (snd r)) rules.
Proof.
  all_rules ltac:(cbn [snd]; intros a b; rewrite !update_html_run;
                  apply track_sound;
                  [apply rules_nonempty | vm_compute; reflexivity]).
Qed.

(** ** Text that is in no search literal *)

Lemma tails_head old u :
  In u (tails old) -> exists h u', u = h :: u' /\ In h old.
Proof.
  induction old as [|o old IH]; simpl; [tauto|]. intros [<-|H].
  - exists o, old. auto.
  - destruct (IH H) as (h & u' & -> & Hin). exists h, u'. auto.
Qed.

Lemma existsb_eqb_false c old h :
  existsb (N.eqb c) old = false -> In h old -> N.eqb c h = false.
Proof.
  intros H Hin. destruct (N.eqb c h) eqn:E; [|reflexivity].
  rewrite <- H. symmetry. apply existsb_exists. now exists h.
Qed.

Lemma foreign_overlap_free old c :
  old <> [] -> existsb (N.eqb c) old = false -> overlap_free old [c] = true.
Proof.
  intros Hold Hc. unfold overlap_free. apply andb_true_iff. split.
  - apply forallb_forall. intros u Hu.
    destruct (tails_head old u Hu) as (h & u' & -> & Hin).
    pose proof (existsb_eqb_false c old h Hc Hin) as E.
    unfold comparable. simpl. rewrite E, (N.eqb_sym h c), E. reflexivity.
  - destruct old as [|o old]; [congruence|].
    pose proof (existsb_eqb_false c (o :: old) o Hc (or_introl eq_refl)) as E.
    unfold comparable. simpl. rewrite E, (N.eqb_sym o c), E. reflexivity.
Qed.

Lemma run_nil rs : Forall nonempty_search rs -> run rs [] = [].
Proof.
  induction 1 as [|[old new] rs Hold _ IH]; [reflexivity|].
  rewrite run_cons, replace_nil by exact Hold. exact IH.
Qed.

Lemma run_frame_char rs c :
  Forall nonempty_search rs -> foreign rs c = true ->
  forall a b, run rs (a ++ [c] ++ b) = run rs a ++ [c] ++ run rs b.
Proof.
  unfold foreign.
  induction 1 as [|[old new] rs Hold _ IH]; intros Hc a b; [reflexivity|].
  simpl in Hc. apply andb_true_iff in Hc as [Hc1 Hc2].
  apply negb_true_iff in Hc1. unfold nonempty_search in Hold.
  cbn [fst] in *. rewrite !run_cons.
  rewrite replace_frame by (auto using foreign_overlap_free).
  now apply IH.
Qed.

Lemma run_frame_foreign rs :
  Forall nonempty_search rs ->
  forall m, m <> [] -> forallb (foreign rs) m = true ->
  forall a b, run rs (a ++ m ++ b) = run rs a ++ m ++ run rs b.
Proof.
  intros Hne. induction m as [|c m IH]; intros Hm Hf a b; [congruence|].
  simpl in Hf. apply andb_true_iff in Hf as [Hc Hf].
  change (a ++ (c :: m) ++ b) with (a ++ [c] ++ m ++ b).
  rewrite (run_frame_char rs c Hne Hc). destruct m as [|c' m].
  - reflexivity.
  - change ((c' :: m) ++ b) with ([] ++ (c' :: m) ++ b).
    rewrite IH by (assumption || discriminate).
    now rewrite run_nil.
Qed.

(** X6.  A non-empty text made of characters that are in no search
    literal is never changed and never part of a match: it is copied,
    and the text before and after it is rewritten as if it stood
    alone. *)
Theorem foreign_text_kept (m : str) :
  m <> [] -> forallb (foreign rules) m = true -> stays m.
Proof.
  intros Hm Hf a b. rewrite !update_html_run.
  now apply run_frame_foreign; [apply rules_nonempty|..].
Qed.

Lemma foreign_text_kept_witness :
  lit "#42;" <> [] /\
  forallb (foreign rules) (lit "#42;") = true /\
  stays (lit "#42;").
Proof.
  assert (H1 : lit "#42;" <> []) by (vm_compute; discriminate).
  assert (H2 : forallb (foreign rules) (lit "#42;") = true)
    by (vm_compute; reflexivity).
  split; [exact H1|]. split; [exact H2|].
  exact (foreign_text_kept (lit "#42;") H1 H2).
Defined.

Lemma ascii_literals :
  forallb (fun r => forallb (fun x => N.ltb x 128) (fst r)) rules = true.
Proof. vm_compute. reflexivity. Qed.

Lemma non_ascii_foreign c : (128 <= c)%N -> foreign rules c = true.
Proof.
  intros Hc. unfold foreign. apply forallb_forall. intros r Hin.
  pose proof ascii_literals as H. rewrite forallb_forall in H.
  specialize (H r Hin). rewrite forallb_forall in H.
  apply negb_true_iff. destruct (existsb (N.eqb c) (fst r)) eqn:E;
    [|reflexivity].
  apply existsb_exists in E as (x & Hx & Ex). apply N.eqb_eq in Ex as <-.
  specialize (H c Hx). apply N.ltb_lt in H. lia.
Qed.

(** X7.  The rewrite never changes a character outside ASCII: a
    non-empty run of code points from 128 up is copied, and the text
    before and after it is rewritten as if it stood alone. *)
Theorem non_ascii_kept (m : str) :
  m <> [] -> Forall (fun c => (128 <= c)%N) m -> stays m.
Proof.
  intros Hm Hall a b. rewrite !update_html_run.
  apply run_frame_foreign; [apply rules_nonempty|exact Hm|].
  apply forallb_forall. intros c Hc. apply non_ascii_foreign.
  rewrite Forall_forall in Hall. now apply Hall.
Qed.

Lemma non_ascii_kept_witness :
  [233%N; 8364%N] <> [] /\
  Forall (fun c => (128 <= c)%N) [233%N; 8364%N] /\
  update_html (bio_old ++ [233%N; 8364%N] ++ bio_old) =
  bio_new ++ [233%N; 8364%N] ++ bio_new.
Proof.
  assert (H1 : [233%N; 8364%N] <> []) by discriminate.
  assert (H2 : Forall (fun c => (128 <= c)%N) [233%N; 8364%N]).
  { repeat constructor; vm_compute; discriminate. }
  split; [exact H1|]. split; [exact H2|].
  eapply eq_trans;
    [exact (non_ascii_kept [233%N; 8364%N] H1 H2 bio_old bio_old)|].
  vm_compute. reflexivity.
Defined.

(** ** The order of the rules *)

(** X8.  The context-specific rules can run in any order, and the sweep
    anywhere after the rules it is not independent of: a sequence that
    has the context-specific rules in some order, with the sweep put
    before rules it is independent of only, gives the output of the
    program on every document. *)
Theorem specific_rules_any_order (pre post : list rule) :
  Permutation (pre ++ post) specific_rules ->
  forallb (fun r => independent r sweep) post = true ->
  forall d, run (pre ++ sweep :: post) d = update_html d.
Proof.
  intros Hperm Hind d.
  assert (Hne : Forall nonempty_search (pre ++ post)).
  { apply Forall_forall. intros r Hr.
    pose proof specific_rules_nonempty as H. rewrite Forall_forall in H.
    apply H. eapply Permutation_in; eassumption. }
  assert (Hc : forall r1 r2, In r1 (pre ++ post) -> In r2 (pre ++ post) ->
                             commute r1 r2).
  { intros r1 r2 H1 H2.
    apply (pairwise_commute specific_rules specific_rules_nonempty
             specific_rules_independent);
      eapply Permutation_in; eassumption. }
  apply Forall_app in Hne as Hne'. destruct Hne' as [_ Hpost].
  rewrite run_app, (sweep_through post Hpost Hind), run_app.
  rewrite <- (run_app pre post d).
  rewrite (run_permutation _ _ Hc Hperm d).
  rewrite update_html_run. unfold rules. now rewrite run_app.
Qed.

Lemma specific_rules_any_order_witness :
  Permutation
    (rev (tl specific_rules) ++ [(tooltip_box_old, tooltip_box_new)])
    specific_rules /\
  forallb (fun r => independent r sweep)
    [(tooltip_box_old, tooltip_box_new)] = true /\
  run (rev (tl specific_rules) ++
       sweep :: [(tooltip_box_old, tooltip_box_new)]) hazard_pretty_old =
  update_html hazard_pretty_old.
Proof.
  assert (H1 : Permutation
                 (rev (tl specific_rules) ++
                  [(tooltip_box_old, tooltip_box_new)]) specific_rules).
  { apply Permutation_sym. exact (Permutation_rev specific_rules). }
  assert (H2 : forallb (fun r => independent r sweep)
                 [(tooltip_box_old, tooltip_box_new)] = true)
    by (vm_compute; reflexivity).
  split; [exact H1|]. split; [exact H2|].
  exact (specific_rules_any_order _ _ H1 H2 hazard_pretty_old).
Defined.

(** * Further properties of the script and its files *)

Ltac in_record :=
  cbn [In]; intuition (try discriminate).

(** X9.  Whatever the operating system does, the script writes nothing
    but the rewrite of a text it has read: every write of a run has as
    its data [update_html] of the text a read of that run returned. *)
Theorem written_is_rewrite_of_read (sys : system) (w : world sys)
    (data : str) (err : option exn) :
  In (EvWrite data err) (snd (fst (run_script sys w))) ->
  exists html,
    In (EvRead (inr html)) (snd (fst (run_script sys w))) /\
    data = update_html html.
Proof.
  exec_script; generalize update_html; intros u; cbn [In]; intros H;
    repeat (destruct H as [H|H]; [try discriminate H|]);
    try contradiction;
    injection H as <- _; eexists; (split; [|reflexivity]); in_record.
Qed.

Lemma written_is_rewrite_of_read_witness :
  In (EvWrite bio_new None)
    (snd (fst (run_script mem_system (one_file bio_old)))) /\
  exists html,
    In (EvRead (inr html))
      (snd (fst (run_script mem_system (one_file bio_old)))) /\
    bio_new = update_html html.
Proof.
  assert (H : In (EvWrite bio_new None)
                (snd (fst (run_script mem_system (one_file bio_old))))).
  { vm_compute. do 4 right. left. reflexivity. }
  split; [exact H|].
  exact (written_is_rewrite_of_read mem_system (one_file bio_old)
           bio_new None H).
Defined.

(** X10.  Whatever the operating system does, the calls of a run keep
    the discipline of the [with] blocks: a file is opened only when none
    is open, read or written only while open, closed once, also after a
    call that raised, and none is open at the end; a run reads at most
    once, writes at most once, and makes at most six calls. *)
Theorem calls_bracketed (sys : system) (w : world sys) :
  let log := snd (fst (run_script sys w)) in
  bracketed false log = true /\
  reads_count log <= 1 /\ writes_count log <= 1 /\ length log <= 6.
Proof.
  cbv zeta. exec_script;
    cbv [bracketed reads_count writes_count filter length andb negb];
    repeat split; lia.
Qed.

Ltac mem_exec fs E :=
  unfold run_script, main, bind, with_open, do_open, do_read, do_write,
    do_close;
  generalize update_html; intros u;
  cbv delta [mem_system];
  cbn [mem_system_on sys_open sys_read sys_write sys_close fst snd];
  unfold mem_open, mem_read, mem_write, mem_close, put;
  destruct (fs "index.html"%string) as [[[?s|] [|] [|]]|] eqn:E;
  cbn; repeat (rewrite E; cbn).

(** X11.  In the file system in memory, a run touches no file but
    [index.html], whatever its outcome. *)
Theorem only_index_html_touched (fs : files) (p : string) :
  p <> "index.html"%string ->
  fst (fst (run_script mem_system fs)) p = fs p.
Proof.
  intros Hp. apply String.eqb_neq in Hp.
  mem_exec fs E; rewrite ?Hp; reflexivity.
Qed.

Lemma only_index_html_touched_witness :
  "style.css"%string <> "index.html"%string /\
  fst (fst (run_script mem_system (one_file bio_old))) "style.css"%string =
  one_file bio_old "style.css"%string.
Proof.
  assert (H : "style.css"%string <> "index.html"%string) by discriminate.
  split; [exact H|].
  exact (only_index_html_touched (one_file bio_old) "style.css" H).
Defined.

Lemma update_html_twice d : update_html (update_html d) = update_html d.
Proof.
  rewrite (update_html_run (update_html d)).
  apply run_noop, search_literals_gone.
Qed.

(** ** Line ends *)

Lemma universal_newlines_cr_lf s :
  universal_newlines (13%N :: 10%N :: s) = 10%N :: universal_newlines s.
Proof. reflexivity. Qed.

Lemma universal_newlines_cr_other d s :
  N.eqb d 10 = false ->
  universal_newlines (13%N :: d :: s) = 10%N :: universal_newlines (d :: s).
Proof.
  intros H.
  change (universal_newlines (13%N :: d :: s))
    with (10%N :: (if N.eqb d 10 then universal_newlines s
                   else universal_newlines (d :: s))).
  now rewrite H.
Qed.

Lemma universal_newlines_other c s :
  N.eqb c 13 = false ->
  universal_newlines (c :: s) = c :: universal_newlines s.
Proof.
  intros H.
  change (universal_newlines (c :: s))
    with (if N.eqb c 13
          then 10%N :: match s with
                       | [] => []
                       | d :: s'' =>
                           if N.eqb d 10 then universal_newlines s''
                           else universal_newlines s
                       end
          else c :: universal_newlines s).
  now rewrite H.
Qed.

(** A text that was read has no CR. *)
Lemma universal_newlines_no_cr_from n :
  forall s, length s <= n -> no_cr (universal_newlines s) = true.
Proof.
  induction n as [|n IH]; intros s Hlen.
  - destruct s; [reflexivity|simpl in Hlen; lia].
  - destruct s as [|c s]; [reflexivity|]. simpl in Hlen.
    destruct (N.eqb c 13) eqn:Hc.
    + apply N.eqb_eq in Hc as ->. destruct s as [|d s]; [reflexivity|].
      simpl in Hlen. destruct (N.eqb d 10) eqn:Hd.
      * apply N.eqb_eq in Hd as ->. rewrite universal_newlines_cr_lf.
        unfold no_cr. simpl. apply IH. lia.
      * rewrite universal_newlines_cr_other by exact Hd.
        unfold no_cr. simpl. apply IH. simpl. lia.
    + rewrite universal_newlines_other by exact Hc.
      unfold no_cr. simpl. rewrite Hc. simpl. apply IH. lia.
Qed.

Lemma universal_newlines_no_cr s : no_cr (universal_newlines s) = true.
Proof. now apply (universal_newlines_no_cr_from (length s)). Qed.

(** A text without CR is read as it is. *)
Lemma universal_newlines_id s : no_cr s = true -> universal_newlines s = s.
Proof.
  induction s as [|c s IH]; intros H; [reflexivity|].
  unfold no_cr in H. simpl in H. apply andb_true_iff in H as [Hc H].
  apply negb_true_iff in Hc.
  rewrite universal_newlines_other by exact Hc. now rewrite IH.
Qed.

(** A text without CR that was written is read back as it was. *)
Lemma to_linesep_back p t :
  no_cr t = true -> universal_newlines (to_linesep p t) = t.
Proof.
  destruct p; unfold to_linesep.
  - apply universal_newlines_id.
  - induction t as [|c t IH]; intros H; [reflexivity|].
    unfold no_cr in H. simpl in H. apply andb_true_iff in H as [Hc H].
    apply negb_true_iff in Hc. simpl flat_map.
    destruct (N.eqb c 10) eqn:Hl.
    + apply N.eqb_eq in Hl as ->. simpl app.
      rewrite universal_newlines_cr_lf. now rewrite IH.
    + simpl app. rewrite universal_newlines_other by exact Hc.
      now rewrite IH.
Qed.

(** A replacement brings in no character of a kind that neither the
    text nor the replacement literal has. *)
Lemma replace_keeps_chars (P : char -> bool) old new :
  old <> [] -> forallb P new = true ->
  forall n s, length s <= n -> forallb P s = true ->
  forallb P (replace old new s) = true.
Proof.
  intros Hold Hnew. pose proof (nonempty_length _ Hold) as Hpos.
  induction n as [|n IH]; intros s Hlen Hs.
  - destruct s; [|simpl in Hlen; lia]. now rewrite replace_nil.
  - destruct s as [|c s]; [now rewrite replace_nil|].
    destruct (prefix old (c :: s)) eqn:Hp.
    + apply prefix_inv in Hp as [r Er]. rewrite Er in *.
      rewrite replace_hit by exact Hold.
      rewrite forallb_app in Hs. apply andb_true_iff in Hs as [_ Hr].
      rewrite forallb_app, Hnew. simpl. apply IH; [|exact Hr].
      rewrite length_app in Hlen. lia.
    + rewrite replace_miss by assumption. simpl in *.
      apply andb_true_iff in Hs as [Hc Hs]. rewrite Hc. simpl.
      apply IH; [lia|exact Hs].
Qed.

Lemma run_keeps_chars (P : char -> bool) rs :
  Forall nonempty_search rs ->
  forallb (fun r => forallb P (snd r)) rs = true ->
  forall d, forallb P d = true -> forallb P (run rs d) = true.
Proof.
  induction 1 as [|[old new] rs Hold _ IH]; intros Hall d Hd; [exact Hd|].
  simpl in Hall. apply andb_true_iff in Hall as [Hnew Hall].
  rewrite run_cons. apply (IH Hall).
  now apply (replace_keeps_chars P old new Hold Hnew (length d)).
Qed.

Lemma update_html_no_cr d : no_cr d = true -> no_cr (update_html d) = true.
Proof.
  intros H. rewrite update_html_run. unfold no_cr.
  apply run_keeps_chars; [apply rules_nonempty| |exact H].
  vm_compute. reflexivity.
Qed.

(** What a run left is what a second run leaves. *)
Lemma rewritten_twice p s : rewritten p (rewritten p s) = rewritten p s.
Proof.
  unfold rewritten.
  rewrite to_linesep_back
    by apply update_html_no_cr, universal_newlines_no_cr.
  now rewrite update_html_twice.
Qed.

Example crlf_pretty_form_migrated :
  fst (fst (run_script (mem_system_on Windows)
              (one_file (to_linesep Windows stability_pretty_old))))
    "index.html"%string =
  Some {| f_content := Text (to_linesep Windows stability_pretty_new);
          f_readable := true; f_writable := true |}.
Proof. vm_compute. reflexivity. Qed.

Example lone_cr_read_as_lf :
  fst (fst (run_script mem_system (one_file (lit "a" ++ [13%N] ++ lit "b"))))
    "index.html"%string =
  Some {| f_content := Text (lit "a" ++ nl ++ lit "b");
          f_readable := true; f_writable := true |}.
Proof. vm_compute. reflexivity. Qed.

(** X12.  In the file system in memory, on either platform, running the
    script again after a run that succeeded succeeds too and leaves
    [index.html] as the first run left it.  The first run reads CR LF
    and CR as LF and writes the line ends of the platform; the second
    run reads that text back as the first run rewrote it. *)
Theorem second_run_changes_nothing (p : platform) (fs : files) :
  snd (run_script (mem_system_on p) fs) = inr tt ->
  let fs1 := fst (fst (run_script (mem_system_on p) fs)) in
  snd (run_script (mem_system_on p) fs1) = inr tt /\
  fst (fst (run_script (mem_system_on p) fs1)) "index.html"%string =
  fs1 "index.html"%string.
Proof.
  cbv zeta. pose proof (rewritten_twice p) as Hu. unfold rewritten in Hu.
  revert Hu.
  mem_exec fs E; intros Hu H; try discriminate H.
  rewrite Hu. split; reflexivity.
Qed.

Lemma second_run_changes_nothing_witness :
  snd (run_script (mem_system_on Windows)
         (one_file ([13%N; 10%N] ++ hazard_pretty_old ++ [13%N]))) =
  inr tt /\
  snd (run_script (mem_system_on Windows)
         (fst (fst (run_script (mem_system_on Windows)
                      (one_file ([13%N; 10%N] ++ hazard_pretty_old ++
                                 [13%N])))))) =
  inr tt /\
  fst (fst (run_script (mem_system_on Windows)
              (fst (fst (run_script (mem_system_on Windows)
                           (one_file ([13%N; 10%N] ++ hazard_pretty_old ++
                                      [13%N])))))))
    "index.html"%string =
  fst (fst (run_script (mem_system_on Windows)
              (one_file ([13%N; 10%N] ++ hazard_pretty_old ++ [13%N]))))
    "index.html"%string.
Proof.
  assert (H : snd (run_script (mem_system_on Windows)
                     (one_file ([13%N; 10%N] ++ hazard_pretty_old ++
                                [13%N]))) = inr tt)
    by (vm_compute; reflexivity).
  split; [exact H|].
  exact (second_run_changes_nothing Windows
           (one_file ([13%N; 10%N] ++ hazard_pretty_old ++ [13%N])) H).
Defined.

(** X13.  In the file system in memory, on either platform, a readable
    [index.html] that cannot be written is left intact: the script
    reads it (CR LF and CR read as LF), fails with [PermissionError]
    when it opens it for writing, and no file has changed. *)
Theorem read_only_file_intact (p : platform) (fs : files) (s : str) :
  fs "index.html"%string =
    Some {| f_content := Text s; f_readable := true; f_writable := false |} ->
  snd (run_script (mem_system_on p) fs) = inl PermissionError /\
  fst (fst (run_script (mem_system_on p) fs)) = fs /\
  snd (fst (run_script (mem_system_on p) fs)) =
    [EvOpen "index.html" "r" "utf-8" None;
     EvRead (inr (universal_newlines s)); EvClose None;
     EvOpen "index.html" "w" "utf-8" (Some PermissionError)].
Proof.
  intros H.
  mem_exec fs E; try discriminate H.
  injection H as ->. repeat split.
Qed.

Lemma read_only_file_intact_witness :
  put "index.html"
    {| f_content := Text (bio_old ++ [13%N; 10%N]); f_readable := true;
       f_writable := false |}
    no_files "index.html"%string =
  Some {| f_content := Text (bio_old ++ [13%N; 10%N]); f_readable := true;
          f_writable := false |} /\
  snd (run_script (mem_system_on Windows)
         (put "index.html"
            {| f_content := Text (bio_old ++ [13%N; 10%N]);
               f_readable := true; f_writable := false |} no_files)) =
  inl PermissionError /\
  snd (fst (run_script (mem_system_on Windows)
              (put "index.html"
                 {| f_content := Text (bio_old ++ [13%N; 10%N]);
                    f_readable := true; f_writable := false |} no_files))) =
  [EvOpen "index.html" "r" "utf-8" None;
   EvRead (inr (universal_newlines (bio_old ++ [13%N; 10%N]))); EvClose None;
   EvOpen "index.html" "w" "utf-8" (Some PermissionError)].
Proof.
  split; [reflexivity|].
  pose proof (read_only_file_intact Windows
                (put "index.html"
                   {| f_content := Text (bio_old ++ [13%N; 10%N]);
                      f_readable := true; f_writable := false |} no_files)
                (bio_old ++ [13%N; 10%N]) eq_refl) as (H1 & _ & H3).
  split; [exact H1|exact H3].
Defined.
